(** * MineMeld core: polling miner, IPv4 aggregator and TAXII decoder

    A shallow embedding of [minemeld/ft/basepoller.py], [minemeld/ft/ipop.py]
    and the observable decoder of [minemeld/ft/taxii.py], with the properties
    of the specification stated and proved over it.

    Python dictionaries are finite maps ([gmap]) from attribute names to
    values; the indicator table is a finite map from indicator strings to
    such records.  Exceptions are an explicit [Raise] result. *)

From Stdlib Require Import ZArith Lia Ascii String DecimalString DecimalN.
From stdpp Require Import base option list sorting gmap strings.

Local Open Scope Z_scope.

(** ** Python values carried in indicator records *)

(** The attribute values that occur in indicator records: [None], integers
    (timestamps, confidence), strings and lists (e.g. [sources]).  On this
    universe Python's [==] is structural equality. *)
#[warnings="-register-all"]
Inductive value : Type :=
| VNone
| VInt (n : Z)
| VStr (s : string)
| VList (l : list value).

Fixpoint value_eqb (a b : value) : bool :=
  match a, b with
  | VNone, VNone => true
  | VInt x, VInt y => Z.eqb x y
  | VStr x, VStr y => String.eqb x y
  | VList x, VList y =>
      (fix go (x y : list value) : bool :=
         match x, y with
         | [], [] => true
         | a :: x', b :: y' => value_eqb a b && go x' y'
         | _, _ => false
         end) x y
  | _, _ => false
  end.

Abbreviation record := (gmap string value).

(** [d.get(k, None)] *)
Definition py_get (d : record) (k : string) : value := default VNone (d !! k).

(** Exceptions: a computation either returns or raises. *)
Inductive result (A : Type) : Type :=
| Ok (a : A)
| Raise.
Arguments Ok {A} a.
Arguments Raise {A}.

#[global] Instance result_ret : MRet result := fun A a => Ok a.

#[global] Instance result_bind : MBind result := fun A B f m =>
  match m with
  | Ok a => f a
  | Raise => Raise
  end.

Definition of_option {A : Type} (o : option A) : result A :=
  match o with
  | Some a => Ok a
  | None => Raise
  end.

Section value_ind.
Variable P : value -> Prop.
Hypothesis HNone : P VNone.
Hypothesis HInt : forall n, P (VInt n).
Hypothesis HStr : forall s, P (VStr s).
Hypothesis HList : forall l, Forall P l -> P (VList l).

Fixpoint value_nested_ind (v : value) : P v :=
  match v with
  | VNone => HNone
  | VInt n => HInt n
  | VStr s => HStr s
  | VList l =>
      HList l ((fix go (l : list value) : Forall P l :=
                  match l with
                  | [] => @List.Forall_nil _ P
                  | x :: l' =>
                      @List.Forall_cons _ P x l' (value_nested_ind x) (go l')
                  end) l)
  end.
End value_ind.

Lemma value_eqb_eq (a b : value) : value_eqb a b = true <-> a = b.
Proof.
  revert b. induction a as [| n | s | l IH] using value_nested_ind;
    intros [| m | t | k]; simpl; try (split; [discriminate | congruence]);
    try tauto.
  - rewrite Z.eqb_eq. split; congruence.
  - rewrite String.eqb_eq. split; congruence.
  - revert k. induction IH as [| x l Hx _ IHl]; intros [| y k]; simpl;
      try (split; [discriminate | congruence]); try tauto.
    rewrite andb_true_iff, Hx, IHl. split.
    + intros [-> Hk]. congruence.
    + intros Heq. injection Heq as -> ->. tauto.
Qed.

Lemma value_eqb_refl (a : value) : value_eqb a a = true.
Proof. now apply value_eqb_eq. Qed.

Lemma value_eqb_neq (a b : value) : value_eqb a b = false <-> a <> b.
Proof.
  rewrite <- value_eqb_eq. destruct (value_eqb a b); split; congruence.
Qed.

#[global] Instance value_eq_dec : EqDecision value.
Proof.
  intros a b. destruct (value_eqb a b) eqn:E.
  - left. now apply value_eqb_eq.
  - right. now apply value_eqb_neq.
Defined.

(** Loops whose body may raise: the first exception ends the loop. *)
Fixpoint for_each {A S : Type} (f : S -> A -> result S) (l : list A) (s : S)
  : result S :=
  match l with
  | [] => Ok s
  | x :: l' => s' ← f s x; for_each f l' s'
  end.

(** ** The polling miner, [minemeld/ft/basepoller.py] *)
Module Poller.

(** [_MAX_AGE_OUT = ((1 << 32)-1)*1000] *)
Definition _MAX_AGE_OUT : Z := (Z.shiftl 1 32 - 1) * 1000.

(** Messages sent downstream by [emit_update] and [emit_withdraw]. *)
Inductive emit : Type :=
| Update (indicator : string) (v : record)
| Withdraw (indicator : string).

(** The mutable part of a [BasePollerFT] node. *)
Record node : Type := {
  table : gmap string record;
  emitted : list emit;
  statistics : gmap string Z;
  last_run : option Z;
  last_ageout_run : option Z
}.

Definition set_table (t : gmap string record) (n : node) : node :=
  {| table := t; emitted := emitted n; statistics := statistics n;
     last_run := last_run n; last_ageout_run := last_ageout_run n |}.

(** [self.table.put(i, v)] *)
Definition table_put (i : string) (v : record) (n : node) : node :=
  set_table (<[i := v]> (table n)) n.

(** [self.table.delete(i)] *)
Definition table_delete (i : string) (n : node) : node :=
  set_table (delete i (table n)) n.

Definition emit_update (i : string) (v : record) (n : node) : node :=
  {| table := table n; emitted := emitted n ++ [Update i v];
     statistics := statistics n;
     last_run := last_run n; last_ageout_run := last_ageout_run n |}.

Definition emit_withdraw (i : string) (n : node) : node :=
  {| table := table n; emitted := emitted n ++ [Withdraw i];
     statistics := statistics n;
     last_run := last_run n; last_ageout_run := last_ageout_run n |}.

(** [self.statistics[k] += 1] *)
Definition count (k : string) (n : node) : node :=
  {| table := table n; emitted := emitted n;
     statistics := <[k := default 0 (statistics n !! k) + 1]> (statistics n);
     last_run := last_run n; last_ageout_run := last_ageout_run n |}.

Definition set_last_ageout_run (now : Z) (n : node) : node :=
  {| table := table n; emitted := emitted n; statistics := statistics n;
     last_run := last_run n; last_ageout_run := Some now |}.

(** *** The indicator table's secondary indexes *)

(** Modelled from the spec: [table.Table] is not part of the sources.  The
    spec describes it as a keyed store with secondary indexes on the
    age-out, withdrawn-at and last-run timestamps and range scans by index:
    [query(index=attr, to_key=k)] yields the records whose [attr] is a
    timestamp at most [k], in ascending order of that timestamp; a record
    without the attribute is not in the index. *)
Definition index_key (attr : string) (r : record) : option Z :=
  match r !! attr with
  | Some (VInt n) => Some n
  | _ => None
  end.

Definition in_index (attr : string) (to_key : Z) (kv : string * record) : Prop :=
  match index_key attr kv.2 with
  | Some n => n <= to_key
  | None => False
  end.

#[global] Instance in_index_dec attr to_key kv : Decision (in_index attr to_key kv).
Proof. unfold in_index. destruct (index_key attr kv.2); apply _. Defined.

Definition index_le (attr : string) (a b : string * record) : Prop :=
  default 0 (index_key attr a.2) <= default 0 (index_key attr b.2).

#[global] Instance index_le_dec attr a b : Decision (index_le attr a b).
Proof. unfold index_le. apply _. Defined.

(** Modelled from the spec: the range scan, see [index_key]. *)
Definition query (attr : string) (to_key : Z) (t : gmap string record)
  : list (string * record) :=
  merge_sort (index_le attr) (filter (in_index attr to_key) (map_to_list t)).

(** *** Age-out policy *)

(** Modelled from the spec: [utils.parse_age_out] is not part of the
    sources.  An age-out expression parses to a base attribute, one of
    [first_seen] and [last_seen], and an offset in milliseconds; a null
    expression is [None]. *)
Inductive age_base : Type := first_seen | last_seen.

Definition base_key (b : age_base) : string :=
  match b with
  | first_seen => "first_seen"
  | last_seen => "last_seen"
  end.

Record age_out_sel : Type := { base : age_base; offset : Z }.

(** [self.age_out]: the keys [interval], [sudden_death] and [default], and
    one entry per indicator type. *)
Record age_out_policy : Type := {
  ao_interval : Z;
  sudden_death : bool;
  ao_default : option age_out_sel;
  per_type : gmap string (option age_out_sel)
}.

Record config : Type := {
  source_name : string;
  attributes : record;
  interval : Z;
  num_retries : Z;
  age_out : age_out_policy
}.

(** [self.age_out[t]] for a type [t] that is a key of [self.age_out]; the
    entries under [interval] and [sudden_death] are not selectors, and
    subscripting them raises. *)
Definition age_out_entry (ao : age_out_policy) (t : string)
  : option (result (option age_out_sel)) :=
  if decide (t = "interval") then Some Raise
  else if decide (t = "sudden_death") then Some Raise
  else if decide (t = "default") then Some (Ok (ao_default ao))
  else Ok <$> per_type ao !! t.

Definition _calc_age_out (ao : age_out_policy) (attrs : record) : result Z :=
  sel ← match attrs !! "type" with
        | None | Some VNone => Ok (ao_default ao)
        | Some (VStr t) =>
            match age_out_entry ao t with
            | None => Ok (ao_default ao)
            | Some e => e
            end
        | Some (VInt _) => Ok (ao_default ao)
        | Some (VList _) => Raise
        end;
  match sel with
  | None => Ok _MAX_AGE_OUT
  | Some sel =>
      b ← of_option (attrs !! base_key (base sel));
      match b with
      | VInt b => Ok (b + offset sel)
      | _ => Raise
      end
  end.

(** *** Indicator status *)

Definition D_MASK : Z := 1.
Definition F_MASK : Z := 2.
Definition A_MASK : Z := 4.
Definition W_MASK : Z := 8.

Definition NX : Z := 0.
Definition NFNANW : Z := D_MASK.
Definition XFNANW : Z := Z.lor D_MASK F_MASK.
Definition NFXANW : Z := Z.lor D_MASK A_MASK.
Definition XFXANW : Z := Z.lor (Z.lor D_MASK F_MASK) A_MASK.
Definition NFNAXW : Z := Z.lor D_MASK W_MASK.
Definition XFNAXW : Z := Z.lor (Z.lor D_MASK F_MASK) W_MASK.
Definition NFXAXW : Z := Z.lor (Z.lor D_MASK A_MASK) W_MASK.
Definition XFXAXW : Z := Z.lor (Z.lor (Z.lor D_MASK F_MASK) A_MASK) W_MASK.

(** Python 2 orders values of different types: [None] is below every
    integer, and integers are below lists and strings. *)
Definition py_lt (v : value) (n : Z) : bool :=
  match v with
  | VNone => true
  | VInt a => a <? n
  | VStr _ | VList _ => false
  end.

Definition py_ge (v : value) (n : Z) : bool := negb (py_lt v n).

Record IndicatorStatus : Type := { cv : option record; state : Z }.

(** [IndicatorStatus.__init__] *)
Definition IndicatorStatus_init (indicator : string) (t : gmap string record)
    (now in_feed_threshold : Z) : result IndicatorStatus :=
  match t !! indicator with
  | None => Ok {| cv := None; state := 0 |}
  | Some r =>
      let s := Z.lor 0 D_MASK in
      a ← of_option (r !! "_age_out");
      let s := if py_lt a now then Z.lor s A_MASK else s in
      l ← of_option (r !! "_last_run");
      let s := if py_ge l in_feed_threshold then Z.lor s F_MASK else s in
      let s := if decide (py_get r "_withdrawn" = VNone) then s
               else Z.lor s W_MASK in
      Ok {| cv := Some r; state := s |}
  end.

(** *** The workers *)

(** One pass of [_age_out_run], at time [now]. *)
Definition age_out_step (now : Z) (n : node) (iv : string * record) : node :=
  let '(i, v) := iv in
  if decide (py_get v "_withdrawn" = VNone) then
    let n := emit_withdraw i n in
    let v := <["_withdrawn" := VInt now]> v in
    let n := table_put i v n in
    count "aged_out" n
  else n.

Definition _age_out_run (now : Z) (n : node) : node :=
  let n := foldl (age_out_step now) n (query "_age_out" (now - 1) (table n)) in
  set_last_ageout_run now n.

Definition sudden_death_step (lr : Z) (n : node) (iv : string * record) : node :=
  let '(i, v) := iv in
  let v := <["_age_out" := VInt (lr - 1)]> v in
  let n := table_put i v n in
  count "removed" n.

Definition _sudden_death (n : node) : node :=
  match last_run n with
  | None => n
  | Some lr => foldl (sudden_death_step lr) n (query "_last_run" lr (table n))
  end.

Definition collect_step (n : node) (i : string) : node :=
  count "garbage_collected" (table_delete i n).

Definition _collect_garbage (t0 : Z) (n : node) : node :=
  foldl collect_step n (query "_withdrawn" (t0 - 1) (table n)).*1.

Definition _compare_attributes (oa na : record) : bool :=
  forallb (fun kx : string * value => value_eqb (py_get oa kx.1) kx.2)
          (map_to_list na).

Definition in_states (s : Z) (l : list Z) : bool := existsb (Z.eqb s) l.

(** The body of the inner loop of [_polling_loop], for one pair
    [(indicator, attributes)] produced by the feed. *)
Definition process_pair (cfg : config) (now : Z) (n : node)
    (ia : option string * record) : result node :=
  let '(indicator, attrs) := ia in
  match indicator with
  | None => Ok n
  | Some indicator =>
      let in_feed_threshold :=
        match last_run n with
        | Some lr => lr
        | None => now - interval cfg * 1000
        end in
      istatus ← IndicatorStatus_init indicator (table n) now in_feed_threshold;
      if in_states (state istatus) [NX; NFNANW; NFXANW; NFXAXW; NFNAXW] then
        let v := attributes cfg in
        let v := <["sources" := VList [VStr (source_name cfg)]]> v in
        let v := <["last_seen" := VInt now]> v in
        let v := <["first_seen" := VInt now]> v in
        let v := <["_last_run" := VInt now]> v in
        let v := attrs ∪ v in
        a ← _calc_age_out (age_out cfg) v;
        let v := <["_age_out" := VInt a]> v in
        let n := count "added" n in
        let n := table_put indicator v n in
        Ok (emit_update indicator v n)
      else if state istatus =? XFNANW then
        v ← of_option (cv istatus);
        let eq := _compare_attributes v attrs in
        let v := <["_last_run" := VInt now]> v in
        let v := attrs ∪ v in
        a ← _calc_age_out (age_out cfg) v;
        let v := <["_age_out" := VInt a]> v in
        let n := table_put indicator v n in
        Ok (if eq then n else emit_update indicator v n)
      else if state istatus =? XFXANW then
        v ← of_option (cv istatus);
        let v := <["_last_run" := VInt now]> v in
        Ok (table_put indicator v n)
      else if in_states (state istatus) [XFXAXW; XFNAXW] then
        v ← of_option (cv istatus);
        let v := <["_last_run" := VInt now]> v in
        let v := <["_withdrawn" := VInt now]> v in
        Ok (table_put indicator v n)
      else Ok n
  end.

(** One raw feed item: [_process_item] raised on it (the item is logged and
    skipped), or it returned pairs. *)
Definition process_item (cfg : config) (now : Z) (n : node)
    (item : result (list (option string * record))) : result node :=
  match item with
  | Raise => Ok n
  | Ok ipairs => for_each (process_pair cfg now) ipairs n
  end.

Definition _polling_loop (cfg : config) (now : Z)
    (items : list (result (list (option string * record)))) (n : node)
  : result node :=
  for_each (process_item cfg now) items n.

(** The [try] block of one iteration of the loop of [_run]: [lastrun] is the
    time read at the top of the iteration, [now] the time read by
    [_polling_loop]. *)
Definition sudden_death_scan (cfg : config) (n : node) : node :=
  if sudden_death (age_out cfg) then _sudden_death n else n.

Definition run_pass (cfg : config) (lastrun now : Z)
    (items : list (result (list (option string * record)))) (n : node)
  : result node :=
  n ← _polling_loop cfg now items n;
  let n := sudden_death_scan cfg n in
  Ok (_collect_garbage lastrun n).

(** The wait before the next poll, at the end of one iteration of the loop
    of [_run]: [deltat = (lastrun+self.interval*1000)-now], then
    [while deltat < 0: deltat += self.interval*1000].  [fuel] bounds the
    number of turns of the [while]; [None] is a loop still running when the
    fuel is spent. *)
Fixpoint deltat_loop (fuel : nat) (step deltat : Z) : option Z :=
  if deltat <? 0 then
    match fuel with
    | O => None
    | S fuel' => deltat_loop fuel' step (deltat + step)
    end
  else Some deltat.

Definition deltat (fuel : nat) (cfg : config) (lastrun now : Z) : option Z :=
  deltat_loop fuel (interval cfg * 1000)
    ((lastrun + interval cfg * 1000) - now).

(** *** Vocabulary of the properties *)

(** [v.get('_withdrawn', None) is None] *)
Definition not_withdrawn (v : record) : Prop := py_get v "_withdrawn" = VNone.

(** The record is in the [_age_out] index at or below [now - 1]. *)
Definition aged_out (now : Z) (v : record) : Prop :=
  exists a, v !! "_age_out" = Some (VInt a) /\ a <= now - 1.

(** The record is in the [_last_run] index at or below [lr]. *)
Definition missed (lr : Z) (v : record) : Prop :=
  exists x, v !! "_last_run" = Some (VInt x) /\ x <= lr.

(** The record is in the [_withdrawn] index at or below [t0 - 1]. *)
Definition collectable (t0 : Z) (v : record) : Prop :=
  exists w, v !! "_withdrawn" = Some (VInt w) /\ w <= t0 - 1.

(** The threshold computed by [_polling_loop] before it classifies. *)
Definition in_feed_threshold (cfg : config) (now : Z) (n : node) : Z :=
  match last_run n with
  | Some lr => lr
  | None => now - interval cfg * 1000
  end.

(** The value built for an indicator that is not in the feed, before its
    [_age_out] is set: the template, then the poller's four keys, then the
    observed attributes. *)
Definition fresh_value (cfg : config) (now : Z) (attrs : record) : record :=
  attrs ∪ <["_last_run" := VInt now]>
            (<["first_seen" := VInt now]>
               (<["last_seen" := VInt now]>
                  (<["sources" := VList [VStr (source_name cfg)]]>
                     (attributes cfg)))).

(** The value built for an indicator that is in the feed, before its
    [_age_out] is set. *)
Definition merged_value (now : Z) (v attrs : record) : record :=
  attrs ∪ <["_last_run" := VInt now]> v.

(** Some observed attribute differs from [oa.get(k, None)]. *)
Definition differs (oa na : record) : Prop :=
  exists k x, na !! k = Some x /\ py_get oa k <> x.

(** Scenario A of the specification: an empty table and a feed of IPv4
    indicators that never age out. *)
Definition scenario_config : config :=
  {| source_name := "src";
     attributes := {[ "type" := VStr "IPv4" ]};
     interval := 3600;
     num_retries := 2;
     age_out := {| ao_interval := 300; sudden_death := true;
                   ao_default := None; per_type := ∅ |} |}.

Definition scenario_attrs : record :=
  {[ "type" := VStr "IPv4"; "confidence" := VInt 50 ]}.

Definition empty_node : node :=
  {| table := ∅; emitted := []; statistics := ∅;
     last_run := None; last_ageout_run := None |}.

(** The table after the scenario's indicator was seen by the run at
    [t = 1000]. *)
Definition seen_record : record :=
  {[ "type" := VStr "IPv4"; "confidence" := VInt 50;
     "sources" := VList [VStr "src"];
     "first_seen" := VInt 1000; "last_seen" := VInt 1000;
     "_last_run" := VInt 1000; "_age_out" := VInt _MAX_AGE_OUT ]}.

Definition seen_node : node :=
  {| table := {[ "1.2.3.4" := seen_record ]}; emitted := [];
     statistics := ∅; last_run := Some 1000; last_ageout_run := Some 1000 |}.

(** The same table when the indicator aged out at [1500], and when it was
    withdrawn at [1600]. *)
Definition aged_node : node :=
  {| table := {[ "1.2.3.4" := <["_age_out" := VInt 1500]> seen_record ]};
     emitted := []; statistics := ∅;
     last_run := Some 1000; last_ageout_run := Some 1000 |}.

Definition withdrawn_feed_node : node :=
  {| table := {[ "1.2.3.4" := <["_withdrawn" := VInt 1600]> seen_record ]};
     emitted := []; statistics := ∅;
     last_run := Some 1000; last_ageout_run := Some 1600 |}.

(** A table with one record withdrawn at [500] and one at [3000]. *)
Definition withdrawn_node : node :=
  {| table := {[ "1.2.3.4" := <["_withdrawn" := VInt 500]> seen_record;
                 "5.6.7.8" := <["_withdrawn" := VInt 3000]> seen_record ]};
     emitted := []; statistics := ∅;
     last_run := None; last_ageout_run := Some 3000 |}.

(** The value of [state] for a record: the D bit, and the A, F and W bits
    as the three tests of [IndicatorStatus.__init__] set them. *)
Definition state_of (r : record) (a l : value) (now thr : Z) : Z :=
  D_MASK + (if py_lt a now then A_MASK else 0)
         + (if py_ge l thr then F_MASK else 0)
         + (if decide (py_get r "_withdrawn" = VNone) then 0 else W_MASK).

(** Whether [_polling_loop] has a branch for the state. *)
Definition handled (s : Z) : bool :=
  in_states s [NX; NFNANW; NFXANW; NFXAXW; NFNAXW]
  || (s =? XFNANW) || (s =? XFXANW) || in_states s [XFXAXW; XFNAXW].

(** An emitted message is an update. *)
Definition is_update (e : emit) : Prop :=
  match e with
  | Update _ _ => True
  | Withdraw _ => False
  end.

(** What one pair leaves true: the table loses no key, and the messages
    added are updates. *)
Definition grows (n n' : node) : Prop :=
  dom (table n) ⊆ dom (table n') /\
  exists es, emitted n' = emitted n ++ es /\ Forall is_update es.

Definition due (l : list (string * record)) : list string :=
  (filter (fun iv : string * record => not_withdrawn iv.2) l).*1.

(** The indicators withdrawn by the age-out pass at [now]. *)
Definition withdrawn_by (now : Z) (n : node) : list string :=
  due (query "_age_out" (now - 1) (table n)).

(** Successive passes of the age-out worker, at the times [nows]. *)
Definition age_out_runs (nows : list Z) (n : node) : node :=
  foldl (fun n now => _age_out_run now n) n nows.

End Poller.

(** ** The observable decoder of the TAXII miner, [minemeld/ft/taxii.py] *)
Module Taxii.

(** The Python objects of an observable's [to_dict()]: [None], booleans,
    strings, lists and dictionaries; a dictionary is a list of entries with
    distinct keys. *)
#[warnings="-register-all"]
Inductive obj : Type :=
| ONone
| OBool (b : bool)
| OStr (s : string)
| OList (l : list obj)
| ODict (d : list (string * obj)).

Fixpoint entries_get (d : list (string * obj)) (k : string) : option obj :=
  match d with
  | [] => None
  | (k', x) :: d' => if String.eqb k' k then Some x else entries_get d' k
  end.

(** [d[k] = x] *)
Fixpoint entries_set (k : string) (x : obj) (d : list (string * obj))
  : list (string * obj) :=
  match d with
  | [] => [(k, x)]
  | (k', y) :: d' =>
      if String.eqb k' k then (k, x) :: d' else (k', y) :: entries_set k x d'
  end.

(** [o.get(k, None)]; only dictionaries have [get]. *)
Definition get (o : obj) (k : string) : result obj :=
  match o with
  | ODict d => Ok (default ONone (entries_get d k))
  | _ => Raise
  end.

(** Truth value of an object in a condition. *)
Definition truthy (o : obj) : bool :=
  match o with
  | ONone => false
  | OBool b => b
  | OStr s => negb (String.eqb s "")
  | OList l => match l with [] => false | _ => true end
  | ODict d => match d with [] => false | _ => true end
  end.

Definition is_None (o : obj) : bool :=
  match o with
  | ONone => true
  | _ => false
  end.

(** [o == s] for a string literal [s] *)
Definition eq_str (o : obj) (s : string) : bool :=
  match o with
  | OStr t => String.eqb t s
  | _ => false
  end.

(** [type(o) != str] *)
Definition not_str (o : obj) : bool :=
  match o with
  | OStr _ => false
  | _ => true
  end.

(** An observable of the STIX package: its [idref] and its [to_dict()]. *)
Record observable : Type := { idref : option string; to_dict : obj }.

(** The lines shared by the three object types: read the value under
    [key], unwrap a nested [{value: ...}], store it under [indicator] and
    return the result; [None] is returned when a value is missing. *)
Definition take_value (op : obj) (key : string) (res : list (string * obj))
  : result obj :=
  ov ← get op key;
  if is_None ov then Ok ONone
  else
    ov ← (if not_str ov then get ov "value" else Ok ov);
    if is_None ov then Ok ONone
    else Ok (ODict (entries_set "indicator" ov res)).

(** [if o.idref:] *)
Definition has_idref (o : observable) : option string :=
  match idref o with
  | Some r => if String.eqb r "" then None else Some r
  | None => None
  end.

Definition _decode_observable (o : observable) : result obj :=
  match has_idref o with
  | Some r => Ok (ODict [("idref", OStr r)])
  | None =>
      let odict := to_dict o in
      oc ← get odict "observable_composition";
      if truthy oc then Ok ONone
      else
        oo ← get odict "object";
        if is_None oo then Ok ONone
        else
          op ← get oo "properties";
          if is_None op then Ok ONone
          else
            ot ← get op "xsi:type";
            if is_None ot then Ok ONone
            else
              let res := [] in
              if eq_str ot "DomainNameObjectType" then
                let res := entries_set "type" (OStr "domain") res in
                take_value op "value" res
              else if eq_str ot "AddressObjectType" then
                addrcat ← get op "category";
                let res :=
                  if eq_str addrcat "ipv6-addr"
                  then entries_set "type" (OStr "IPv6") res
                  else res in
                let res := entries_set "type" (OStr "IPv4") res in
                source ← get op "is_source";
                let res :=
                  match source with
                  | OBool true => entries_set "direction" (OStr "inbound") res
                  | OBool false => entries_set "direction" (OStr "outbound") res
                  | _ => res
                  end in
                take_value op "address_value" res
              else if eq_str ot "URIObjectType" then
                let res := entries_set "type" (OStr "URL") res in
                take_value op "value" res
              else Ok ONone
  end.

(** An Address object observable with the given category, [is_source]
    flag and address value. *)
Definition address_observable (category : obj) (is_source : obj)
    (address_value : obj) : observable :=
  {| idref := None;
     to_dict :=
       ODict [("object",
               ODict [("properties",
                       ODict [("xsi:type", OStr "AddressObjectType");
                              ("category", category);
                              ("is_source", is_source);
                              ("address_value", address_value)])])] |}.

(** The properties dictionary of an Address object. *)
Definition is_address (o : observable) (op : obj) : Prop :=
  has_idref o = None /\
  (exists oc, get (to_dict o) "observable_composition" = Ok oc /\
              truthy oc = false) /\
  (exists oo, get (to_dict o) "object" = Ok oo /\
              get oo "properties" = Ok op) /\
  get op "xsi:type" = Ok (OStr "AddressObjectType").

End Taxii.

(** ** The IPv4 aggregator, [minemeld/ft/ipop.py] *)
Module Ipop.

(** *** Text of IPv4 addresses *)

(** [s.split(c)] *)
Fixpoint split (c : ascii) (s : string) : list string :=
  match s with
  | EmptyString => [EmptyString]
  | String a s' =>
      if Ascii.eqb a c then EmptyString :: split c s'
      else match split c s' with
           | h :: t => String a h :: t
           | [] => [String a EmptyString]
           end
  end.

(** [s.split(c, 1)]: the text before the first [c] and, when there is a
    [c], the text after it. *)
Fixpoint split1 (c : ascii) (s : string) : string * option string :=
  match s with
  | EmptyString => (EmptyString, None)
  | String a s' =>
      if Ascii.eqb a c then (EmptyString, Some s')
      else let '(h, t) := split1 c s' in (String a h, t)
  end.

(** [c in s] *)
Fixpoint contains (c : ascii) (s : string) : bool :=
  match s with
  | EmptyString => false
  | String a s' => Ascii.eqb a c || contains c s'
  end.

(** ["%d" % n] for a natural number *)
Definition decimal (n : N) : string := NilEmpty.string_of_uint (N.to_uint n).

(** The number written by a canonical decimal numeral: digits only, no
    leading zero. *)
Definition parse_decimal (s : string) : option N :=
  match NilEmpty.uint_of_string s with
  | Some d =>
      let n := N.of_uint d in
      if String.eqb (decimal n) s then Some n else None
  | None => None
  end.

(** The [netaddr] library is not part of the repository.  It is modelled
    for the IPv4 family and for text in canonical form: four decimal octets
    for an address, an address and a decimal prefix length for a network.
    Text that [netaddr] accepts beyond that (abbreviated, octal or
    hexadecimal quads, netmask suffixes, IPv6) does not parse here. *)

(** [netaddr.strategy.ipv4.int_to_str]: ['%d.%d.%d.%d'] of the four
    octets. *)
Definition int_to_str (n : Z) : string :=
  decimal (Z.to_N (Z.shiftr n 24)) +:+ "." +:+
  decimal (Z.to_N (Z.land (Z.shiftr n 16) 255)) +:+ "." +:+
  decimal (Z.to_N (Z.land (Z.shiftr n 8) 255)) +:+ "." +:+
  decimal (Z.to_N (Z.land n 255)).

Definition octet (s : string) : option Z :=
  n ← parse_decimal s;
  if Z.of_N n <=? 255 then Some (Z.of_N n) else None.

(** [int(netaddr.IPAddress(s))] *)
Definition str_to_int (s : string) : option Z :=
  match split "." s with
  | [a; b; c; d] =>
      a ← octet a; b ← octet b; c ← octet c; d ← octet d;
      Some (Z.lor (Z.shiftl a 24)
              (Z.lor (Z.shiftl b 16) (Z.lor (Z.shiftl c 8) d)))
  | _ => None
  end.

(** [netaddr.IPNetwork(s)]: the address as written and the prefix
    length. *)
Definition IPNetwork (s : string) : option (Z * Z) :=
  let '(a, p) := split1 "/" s in
  ip ← str_to_int a;
  match p with
  | None => Some (ip, 32)
  | Some p =>
      prefixlen ← parse_decimal p;
      if Z.of_N prefixlen <=? 32 then Some (ip, Z.of_N prefixlen) else None
  end.

(** [ipnet.size] *)
Definition size (prefixlen : Z) : Z := 2 ^ (32 - prefixlen).

(** *** Aggregated ranges *)

(** The set of identifiers of a range; an identifier is the 16-byte string
    [uuid.UUID(...).bytes]. *)
Record MWUpdate : Type := {
  start : Z;
  end_ : Z;
  uuids : gset string
}.

(** [MWUpdate.indicator()]: ['%s-%s' % (IPAddress(start), IPAddress(end))].
    The interval store holds 32-bit endpoints, so the addresses rendered
    are IPv4 addresses. *)
Definition indicator (u : MWUpdate) : string :=
  int_to_str (start u) +:+ "-" +:+ int_to_str (end_ u).

(** [MWUpdate.__eq__] *)
Definition MWUpdate_eqb (u o : MWUpdate) : bool :=
  (start u =? start o) && (end_ u =? end_ o).

Definition _range_from_indicator (i : string) : result (Z * Z) :=
  if contains "-" i then
    let '(a, b) := split1 "-" i in
    s ← of_option (str_to_int a);
    e ← of_option (b ≫= str_to_int);
    Ok (s, e)
  else if contains "/" i then
    '(ip, prefixlen) ← of_option (IPNetwork i);
    let s := ip in
    let e := s + size prefixlen - 1 in
    Ok (s, e)
  else
    s ← of_option (str_to_int i);
    let e := s in
    Ok (s, e).

(** The addresses of the IPv4 space. *)
Definition is_ipv4 (n : Z) : Prop := 0 <= n < 2 ^ 32.

(** Well-formed IPv4 indicators: a single address, a CIDR block that lies
    in the IPv4 space, or a hyphenated range of two addresses. *)
Inductive well_formed_indicator : string -> Prop :=
| wf_single (a : Z) :
    is_ipv4 a -> well_formed_indicator (int_to_str a)
| wf_cidr (a p : Z) :
    is_ipv4 a -> 0 <= p <= 32 -> is_ipv4 (a + size p - 1) ->
    well_formed_indicator (int_to_str a +:+ "/" +:+ decimal (Z.to_N p))
| wf_range (a b : Z) :
    is_ipv4 a -> is_ipv4 b ->
    well_formed_indicator (int_to_str a +:+ "-" +:+ int_to_str b).

(** *** The interval store *)

(** Modelled from the spec: [st.ST] is not part of the sources.  The spec
    describes it as a store of tagged intervals
    [(id, start, end, level)] that enumerates the endpoints lying in a
    window, in ascending or descending order, and answers which intervals
    cover a point. *)
Record interval : Type := {
  iv_id : string;
  iv_start : Z;
  iv_end : Z;
  iv_level : Z
}.

#[global] Instance interval_eq_dec : EqDecision interval.
Proof. solve_decision. Defined.

(** [ST(name, 32).max_endpoint] *)
Definition max_endpoint : Z := 2 ^ 32 - 1.

(** Modelled from the spec: [st.put(id, start, end, level=level)]. *)
Definition st_put (i : interval) (s : list interval) : list interval :=
  if decide (i ∈ s) then s else s ++ [i].

(** Modelled from the spec: [st.delete(id, start, end, level=level)]. *)
Definition st_delete (i : interval) (s : list interval) : list interval :=
  filter (fun j => j <> i) s.

Definition endpoints (s : list interval) : list Z :=
  s ≫= (fun i => [iv_start i; iv_end i]).

Definition in_window (include_start : bool) (lo hi e : Z) : bool :=
  (if include_start then lo <=? e else lo <? e) && (e <=? hi).

(** Modelled from the spec:
    [st.query_endpoints(start=, stop=, reverse=, include_start=)], the
    endpoint addresses in the window; a missing bound is the end of the
    address space. *)
Definition query_endpoints (start stop : option Z)
    (reverse include_start : bool) (s : list interval) : list Z :=
  let lo := default 0 start in
  let hi := default max_endpoint stop in
  let l := merge_sort Z.le
             (filter (fun e => in_window include_start lo hi e = true)
                     (endpoints s)) in
  if reverse then List.rev l else l.

(** Modelled from the spec: [st.cover(p)], the intervals that contain
    [p]. *)
Definition cover (p : Z) (s : list interval) : list interval :=
  filter (fun i => iv_start i <= p <= iv_end i) s.

(** *** Range computation *)

(** The variables of the loop over the endpoints. *)
Record sweep : Type := {
  oep : option Z;
  live_ids : gset string;
  ranges : list MWUpdate
}.

(** The variables of the loop over the intervals covering one endpoint. *)
Record at_endpoint : Type := {
  eplevel : Z;
  start_ids : gset string;
  end_ids : gset string;
  live : gset string
}.

(** [result.add(u)]: a set keeps the element it holds when an equal one is
    added. *)
Definition add_range (u : MWUpdate) (l : list MWUpdate) : list MWUpdate :=
  if existsb (MWUpdate_eqb u) l then l else l ++ [u].

Definition cover_step (epaddr first : Z) (a : at_endpoint) (c : interval)
  : result at_endpoint :=
  let eplevel' := if iv_level c >? eplevel a then iv_level c else eplevel a in
  let start_ids' :=
    if iv_start c =? epaddr then start_ids a ∪ {[iv_id c]} else start_ids a in
  let end_ids' :=
    if iv_end c =? epaddr then end_ids a ∪ {[iv_id c]} else end_ids a in
  if negb (iv_end c =? epaddr) && negb (iv_start c =? epaddr) then
    if decide (iv_id c ∈ live a) then
      Ok {| eplevel := eplevel'; start_ids := start_ids';
            end_ids := end_ids'; live := live a |}
    else if epaddr =? first then
      Ok {| eplevel := eplevel'; start_ids := start_ids';
            end_ids := end_ids'; live := live a ∪ {[iv_id c]} |}
    else Raise
  else
    Ok {| eplevel := eplevel'; start_ids := start_ids';
          end_ids := end_ids'; live := live a |}.

Section Aggregator.

(** [WL_LEVEL = st.MAX_LEVEL]; the constant is defined in [st], which is
    not part of the sources. *)
Variable WL_LEVEL : Z.

(** [uuid.UUID(s).bytes], which fails on text that is not a UUID, and
    [str(uuid.UUID(bytes=b))], of the Python library. *)
Variable uuid_bytes : string -> option string.
Variable uuid_str : string -> string.

(** [utils.RESERVED_ATTRIBUTES], which is not part of the sources: the
    combiner registered for an attribute name, if any. *)
Variable RESERVED_ATTRIBUTES : string -> option (value -> value -> result value).

Definition endpoint_step (s : list interval) (first : Z) (w : sweep)
    (epaddr : Z) : result sweep :=
  a ← for_each (cover_step epaddr first) (cover epaddr s)
        {| eplevel := 0; start_ids := ∅; end_ids := ∅; live := live_ids w |};
  if decide (start_ids a = ∅ /\ end_ids a = ∅) then Raise
  else
    let w1 :=
      if decide (start_ids a = ∅) then
        {| oep := oep w; live_ids := live a; ranges := ranges w |}
      else
        let ranges' :=
          match oep w with
          | Some o =>
              if negb (o =? epaddr) && bool_decide (live a <> ∅)
                 && (eplevel a <? WL_LEVEL)
              then add_range {| start := o; end_ := epaddr - 1;
                                uuids := live a |} (ranges w)
              else ranges w
          | None => ranges w
          end in
        {| oep := Some epaddr; live_ids := live a ∪ start_ids a;
           ranges := ranges' |} in
    let w2 :=
      if decide (end_ids a = ∅) then w1
      else
        let ranges' :=
          match oep w1 with
          | Some o =>
              if bool_decide (live_ids w1 <> ∅) && (eplevel a <? WL_LEVEL)
              then add_range {| start := o; end_ := epaddr;
                                uuids := live_ids w1 |} (ranges w1)
              else ranges w1
          | None => ranges w1
          end in
        {| oep := Some (epaddr + 1); live_ids := live_ids w1 ∖ end_ids a;
           ranges := ranges' |} in
    Ok w2.

(** [sorted(eps)] of the set of endpoint addresses in the window *)
Definition window_endpoints (s : list interval) (start stop : option Z)
  : list Z :=
  merge_sort Z.le
    (elements (list_to_set (query_endpoints start stop false true s)
               : gset Z)).

Definition _calc_ipranges (s : list interval) (start stop : option Z)
  : result (list MWUpdate) :=
  match window_endpoints s start stop with
  | [] => Ok []
  | (first :: _) as eps =>
      w ← for_each (endpoint_step s first) eps
            {| oep := None; live_ids := ∅; ranges := [] |};
      Ok (ranges w)
  end.

Definition _endpoints_from_range (s : list interval) (start stop : Z)
  : option Z * option Z :=
  let rangestart :=
    head (query_endpoints (Some 0) (Some (Z.max (start - 1) 0)) true true s) in
  let rangestop :=
    head (query_endpoints (Some (Z.min (stop + 1) max_endpoint))
            (Some max_endpoint) false false s) in
  (rangestart, rangestop).

(** *** The node *)

Inductive emit : Type :=
| Update (indicator : string) (v : record)
| Withdraw (indicator : string).

Record node : Type := {
  table : gmap string record;
  st : list interval;
  emitted : list emit;
  statistics : gmap string Z
}.

(** [self.statistics[k] += 1] *)
Definition count (k : string) (n : node) : node :=
  {| table := table n; st := st n; emitted := emitted n;
     statistics := <[k := default 0 (statistics n !! k) + 1]> (statistics n) |}.

Definition set_table (t : gmap string record) (n : node) : node :=
  {| table := t; st := st n; emitted := emitted n;
     statistics := statistics n |}.

Definition set_st (s : list interval) (n : node) : node :=
  {| table := table n; st := s; emitted := emitted n;
     statistics := statistics n |}.

Definition emit_update (i : string) (v : record) (n : node) : node :=
  {| table := table n; st := st n; emitted := emitted n ++ [Update i v];
     statistics := statistics n |}.

Definition emit_withdraw (i : string) (n : node) : node :=
  {| table := table n; st := st n; emitted := emitted n ++ [Withdraw i];
     statistics := statistics n |}.

(** Modelled from the spec: [table.query('_id', from_key=u, to_key=u,
    include_value=True)], the scan of the [_id] index of [table.Table] for
    one key; [next(..., (None, None))] takes its first entry. *)
Definition query_id (u : string) (t : gmap string record)
  : option (string * record) :=
  head (filter (fun kv : string * record => kv.2 !! "_id" = Some (VStr u))
               (map_to_list t)).

(** The body of [for vk in v] of [_calc_indicator_value]. *)
Definition merge_attribute (mv : record) (kx : string * value)
  : result record :=
  let '(vk, x) := kx in
  match mv !! vk, RESERVED_ATTRIBUTES vk with
  | Some old, Some combine => y ← combine old x; Ok (<[vk := y]> mv)
  | _, _ => Ok (<[vk := x]> mv)
  end.

Definition _calc_indicator_value (t : gmap string record)
    (ids : gset string) : result record :=
  for_each
    (fun mv uuid_ =>
       match query_id (uuid_str uuid_) t with
       | None => Raise
       | Some (_, v) => for_each merge_attribute (map_to_list v) mv
       end)
    (elements ids) {[ "sources" := VList [] ]}.

(** [rangesa - rangesb] on sets of [MWUpdate], which compare by [start]
    and [end]. *)
Definition ranges_diff (a b : list MWUpdate) : list MWUpdate :=
  List.filter (fun u => negb (existsb (MWUpdate_eqb u) b)) a.

Definition emit_range (n : node) (u : MWUpdate) : result node :=
  v ← _calc_indicator_value (table n) (uuids u);
  Ok (emit_update (indicator u) v n).

(** The three loops that end [filtered_update] and [filtered_withdraw]. *)
Definition emit_changes (rangesb rangesa : list MWUpdate) (n : node)
  : result node :=
  let added := ranges_diff rangesa rangesb in
  let removed := ranges_diff rangesb rangesa in
  n ← for_each emit_range added n;
  n ← for_each
        (fun n u =>
           for_each
             (fun n ou =>
                if MWUpdate_eqb u ou && bool_decide (uuids u <> uuids ou)
                then emit_range n u else Ok n)
             rangesb n)
        (ranges_diff rangesa added) n;
  Ok (foldl (fun n u => emit_withdraw (indicator u) n) n removed).

(** [uuid.UUID(v['_id']).bytes] *)
Definition record_id (v : record) : result string :=
  match v !! "_id" with
  | Some (VStr s) => of_option (uuid_bytes s)
  | _ => Raise
  end.

(** [filtered_withdraw], with the call counted by its decorator
    [base._counting('withdraw.processed')]. *)
Definition filtered_withdraw (whitelists : list string)
    (source indicator_ : string) (n : node) : result node :=
  let n := count "withdraw.processed" n in
  match table n !! (indicator_ +:+ source) with
  | None => Ok n
  | Some v =>
      let n := set_table (delete (indicator_ +:+ source) (table n)) n in
      let n := count "removed" n in
      '(start_, stop) ← _range_from_indicator indicator_;
      let level := if bool_decide (source ∈ whitelists) then WL_LEVEL else 1 in
      let '(rangestart, rangestop) :=
        _endpoints_from_range (st n) start_ stop in
      rangesb ← _calc_ipranges (st n) rangestart rangestop;
      uuidbytes ← record_id v;
      let n := set_st (st_delete {| iv_id := uuidbytes; iv_start := start_;
                                    iv_end := stop; iv_level := level |}
                         (st n)) n in
      rangesa ← _calc_ipranges (st n) rangestart rangestop;
      emit_changes rangesb rangesa n
  end.

End Aggregator.

(** *** Vocabulary of the properties *)

(** The interval contains the point. *)
Definition covers (i : interval) (p : Z) : Prop := iv_start i <= p <= iv_end i.

(** A range with a non-empty identifier set, ordered bounds, and no point
    inside an interval of the store at or above the level [wl]. *)
Definition range_ok (wl : Z) (s : list interval) (u : MWUpdate) : Prop :=
  uuids u <> ∅ /\
  start u <= end_ u /\
  forall (p : Z) (i : interval),
    start u <= p <= end_ u -> i ∈ s -> wl <= iv_level i -> ~ covers i p.

(** What the loop over the endpoints keeps true once every endpoint below
    [m] has been handled: the left edge [oep] is inside [lo, m] and beyond
    every interval that ended below [m], and the ranges collected so far
    are well formed and end below [m]. *)
Definition sweep_inv (wl : Z) (s : list interval) (lo m : Z) (w : sweep)
  : Prop :=
  (forall o, oep w = Some o -> lo <= o <= m) /\
  (forall i, i ∈ s -> iv_start i <= iv_end i -> lo <= iv_end i ->
     iv_end i < m -> exists o, oep w = Some o /\ iv_end i < o) /\
  (forall u, u ∈ ranges w -> range_ok wl s u /\ lo <= start u /\ end_ u < m).

(** The first range lies wholly below the second. *)
Definition before (u v : MWUpdate) : Prop := end_ u < start v.

(** The ranges collected so far lie one below the other in the order they
    were added, and all of them end below the left edge [oep]. *)
Definition ordered_sweep (w : sweep) : Prop :=
  StronglySorted before (ranges w) /\
  match oep w with
  | Some o => forall v, v ∈ ranges w -> end_ v < o
  | None => ranges w = []
  end.

(** The bounds that [st.query_endpoints] gives to a window. *)
Definition window_lo (start_ : option Z) : Z := default 0 start_.
Definition window_hi (stop : option Z) : Z := default max_endpoint stop.

(** Scenario C of the specification: [10.0.0.0/24] from one source and
    [10.0.0.128-10.0.0.191] from another. *)
Definition scenario_store : list interval :=
  [ {| iv_id := "u1"; iv_start := 167772160; iv_end := 167772415;
       iv_level := 1 |};
    {| iv_id := "u2"; iv_start := 167772288; iv_end := 167772351;
       iv_level := 1 |} ].

(** Scenario D of the specification: the whole address space from one
    source, with [192.168.0.0/16] whitelisted at level [254]. *)
Definition whitelist_store : list interval :=
  [ {| iv_id := "u1"; iv_start := 0; iv_end := 4294967295; iv_level := 1 |};
    {| iv_id := "wl"; iv_start := 3232235520; iv_end := 3232301055;
       iv_level := 254 |} ].

Definition empty_node : node :=
  {| table := ∅; st := []; emitted := []; statistics := ∅ |}.

End Ipop.

(** * Properties of the polling miner *)

Section PollerFacts.
Import Poller.

(** ** The range scan *)

Lemma query_Permutation attr k (t : gmap string record) :
  query attr k t ≡ₚ filter (in_index attr k) (map_to_list t).
Proof. unfold query. apply merge_sort_Permutation. Qed.

Lemma elem_of_query attr k (t : gmap string record) i v :
  (i, v) ∈ query attr k t <->
  t !! i = Some v /\ exists x, v !! attr = Some (VInt x) /\ x <= k.
Proof.
  rewrite query_Permutation, list_elem_of_filter, elem_of_map_to_list.
  unfold in_index, index_key. simpl. split.
  - intros [Hin Ht]. split; [done |].
    destruct (v !! attr) as [[| x | |] |]; try done. eauto.
  - intros [Ht (x & -> & Hx)]. done.
Qed.

Lemma NoDup_fst_query attr k (t : gmap string record) :
  NoDup (query attr k t).*1.
Proof.
  rewrite query_Permutation.
  assert (H : NoDup (map_to_list t).*1) by apply NoDup_fst_map_to_list.
  revert H. generalize (map_to_list t). intros l.
  induction l as [| [i v] l IH]; simpl; [constructor |].
  intros Hnd. apply NoDup_cons in Hnd as [Hi Hnd].
  rewrite filter_cons. case_decide; simpl; [| auto].
  constructor; [| auto].
  intros Hin. apply Hi. apply list_elem_of_fmap in Hin as ([i' v'] & -> & Hin).
  apply list_elem_of_filter in Hin as [_ Hin].
  apply list_elem_of_fmap. exists (i', v'). done.
Qed.

Lemma query_lookup_unique attr k (t : gmap string record) i v w :
  (i, v) ∈ query attr k t -> (i, w) ∈ query attr k t -> v = w.
Proof.
  rewrite !elem_of_query. intros [H1 _] [H2 _]. congruence.
Qed.

(** ** Simple facts about the node operations *)

Lemma table_count k n : table (count k n) = table n.
Proof. done. Qed.

Lemma emitted_count k n : emitted (count k n) = emitted n.
Proof. done. Qed.

(** ** The age-out worker *)

Lemma age_out_fold_emitted now l n :
  emitted (foldl (age_out_step now) n l)
  = emitted n ++ (Withdraw <$> due l).
Proof.
  revert n. induction l as [| [i v] l IH]; intros n; simpl.
  - by rewrite app_nil_r.
  - rewrite IH. unfold due. rewrite filter_cons. unfold not_withdrawn. simpl.
    destruct (decide (py_get v "_withdrawn" = VNone)); simpl; [| done].
    by rewrite <- app_assoc.
Qed.

Lemma age_out_fold_other now l n i :
  i ∉ due l ->
  table (foldl (age_out_step now) n l) !! i = table n !! i.
Proof.
  revert n. induction l as [| [j v] l IH]; intros n; simpl; [done |].
  unfold due. rewrite filter_cons. unfold not_withdrawn at 1. simpl.
  destruct (decide (py_get v "_withdrawn" = VNone)); simpl; intros Hi.
  - rewrite IH by (intros ?; apply Hi; by right).
    simpl. apply lookup_insert_ne. intros ->. apply Hi. by left.
  - by apply IH.
Qed.

Lemma age_out_fold_due now l n i v :
  NoDup l.*1 -> (i, v) ∈ l -> not_withdrawn v ->
  table (foldl (age_out_step now) n l) !! i
  = Some (<["_withdrawn" := VInt now]> v).
Proof.
  revert n. induction l as [| [j w] l IH]; intros n Hnd Hin Hv; simpl.
  - by apply elem_of_nil in Hin.
  - simpl in Hnd. apply NoDup_cons in Hnd as [Hj Hnd].
    apply elem_of_cons in Hin as [Heq | Hin].
    + injection Heq as <- <-.
      destruct (decide (py_get v "_withdrawn" = VNone)); [| done].
      rewrite age_out_fold_other.
      * simpl. apply lookup_insert_eq.
      * intros Hd. apply Hj. unfold due in Hd.
        apply list_elem_of_fmap in Hd as ([i' v'] & -> & Hd).
        apply list_elem_of_filter in Hd as [_ Hd].
        apply list_elem_of_fmap. by exists (i', v').
    + by apply IH.
Qed.

Lemma NoDup_due l : NoDup l.*1 -> NoDup (due l).
Proof.
  induction l as [| [i v] l IH]; simpl; [constructor |].
  intros Hnd. apply NoDup_cons in Hnd as [Hi Hnd].
  unfold due. rewrite filter_cons. case_decide; simpl; [| by apply IH].
  constructor; [| by apply IH].
  intros Hd. apply Hi.
  apply list_elem_of_fmap in Hd as ([i' v'] & -> & Hd).
  apply list_elem_of_filter in Hd as [_ Hd].
  apply list_elem_of_fmap. by exists (i', v').
Qed.

Lemma elem_of_due l i :
  i ∈ due l <-> exists v, (i, v) ∈ l /\ not_withdrawn v.
Proof.
  unfold due. rewrite list_elem_of_fmap. split.
  - intros ([i' v] & -> & Hin). apply list_elem_of_filter in Hin as [Hv Hin].
    by exists v.
  - intros (v & Hin & Hv). exists (i, v). split; [done |].
    by apply list_elem_of_filter.
Qed.

Lemma elem_of_withdrawn_by now n i :
  i ∈ withdrawn_by now n <->
  exists v, table n !! i = Some v /\ aged_out now v /\ not_withdrawn v.
Proof.
  unfold withdrawn_by. rewrite elem_of_due. unfold aged_out.
  split; intros (v & H & Hv); exists v.
  - apply elem_of_query in H. tauto.
  - split; [| tauto]. apply elem_of_query. tauto.
Qed.

Lemma age_out_run_emitted now n :
  emitted (_age_out_run now n) = emitted n ++ (Withdraw <$> withdrawn_by now n).
Proof. unfold _age_out_run. simpl. apply age_out_fold_emitted. Qed.

Lemma age_out_run_withdrawn now n i :
  i ∈ withdrawn_by now n ->
  table (_age_out_run now n) !! i
  = <["_withdrawn" := VInt now]> <$> table n !! i.
Proof.
  intros Hi. pose proof Hi as Hi'.
  apply elem_of_withdrawn_by in Hi' as (v & Ht & Ha & Hw).
  unfold _age_out_run. simpl. rewrite Ht. simpl.
  apply age_out_fold_due; [apply NoDup_fst_query | | done].
  apply elem_of_query. split; [done |]. exact Ha.
Qed.

Lemma age_out_run_other now n i :
  i ∉ withdrawn_by now n ->
  table (_age_out_run now n) !! i = table n !! i.
Proof. intros Hi. unfold _age_out_run. simpl. by apply age_out_fold_other. Qed.

Lemma age_out_runs_emitted nows n :
  exists ws : list string,
    NoDup ws /\
    (forall i, i ∈ ws -> exists v, table n !! i = Some v /\ not_withdrawn v) /\
    emitted (age_out_runs nows n) = emitted n ++ (Withdraw <$> ws).
Proof.
  revert n. induction nows as [| now nows IH]; intros n; simpl.
  - exists []. split; [constructor |]. split; [by intros i ?%elem_of_nil |].
    by rewrite app_nil_r.
  - destruct (IH (_age_out_run now n)) as (ws & Hnd & Hws & Hem).
    exists (withdrawn_by now n ++ ws). split; [| split].
    + apply NoDup_app. split; [apply NoDup_due, NoDup_fst_query |].
      split; [| done]. intros i Hi Hi2.
      destruct (Hws i Hi2) as (v & Hv & Hnw).
      rewrite age_out_run_withdrawn in Hv by done.
      destruct (table n !! i) as [v0 |]; [| done]. simpl in Hv.
      injection Hv as <-. unfold not_withdrawn, py_get in Hnw.
      by rewrite lookup_insert_eq in Hnw.
    + intros i [Hi | Hi]%elem_of_app.
      * apply elem_of_withdrawn_by in Hi as (v & ? & ? & ?). eauto.
      * destruct (Hws i Hi) as (v & Hv & Hnw).
        destruct (decide (i ∈ withdrawn_by now n)) as [Hin | Hout].
        -- apply elem_of_withdrawn_by in Hin as (v' & ? & ? & ?). eauto.
        -- rewrite age_out_run_other in Hv by done. eauto.
    + unfold age_out_runs in *. simpl. rewrite Hem, age_out_run_emitted.
      by rewrite fmap_app, app_assoc.
Qed.

(** C3: an age-out pass at [now] emits [withdraw(i)] and sets
    [_withdrawn = now] for exactly the records with [_age_out <= now - 1]
    whose [_withdrawn] is unset, each once; the other records are left as
    they are; and over any sequence of passes no indicator is withdrawn
    twice. *)
Theorem age_out_pass_withdraws_once (now : Z) (nows : list Z) (n : node) :
  (exists ws : list string,
     NoDup ws /\
     (forall i, i ∈ ws <->
        exists v, table n !! i = Some v /\ aged_out now v /\ not_withdrawn v) /\
     emitted (_age_out_run now n) = emitted n ++ (Withdraw <$> ws) /\
     (forall i, i ∈ ws ->
        table (_age_out_run now n) !! i
        = <["_withdrawn" := VInt now]> <$> table n !! i) /\
     (forall i, i ∉ ws -> table (_age_out_run now n) !! i = table n !! i)) /\
  (exists ws : list string,
     NoDup ws /\
     (forall i, i ∈ ws -> exists v, table n !! i = Some v /\ not_withdrawn v) /\
     emitted (age_out_runs nows n) = emitted n ++ (Withdraw <$> ws)).
Proof.
  split; [| apply age_out_runs_emitted].
  exists (withdrawn_by now n). split; [apply NoDup_due, NoDup_fst_query |].
  split; [apply elem_of_withdrawn_by |].
  split; [apply age_out_run_emitted |].
  split; [apply age_out_run_withdrawn | apply age_out_run_other].
Qed.

(** ** Exceptions and loops *)

Lemma bind_Ok {A B : Type} (m : result A) (f : A -> result B) (b : B) :
  m ≫= f = Ok b <-> exists a, m = Ok a /\ f a = Ok b.
Proof.
  destruct m as [a |]; simpl; split.
  - intros H. by exists a.
  - by intros (a' & [= <-] & H).
  - done.
  - by intros (a' & [=] & _).
Qed.

Lemma bind_Ok_l {A B : Type} (a : A) (f : A -> result B) : Ok a ≫= f = f a.
Proof. done. Qed.

Lemma for_each_inv {A S : Type} (f : S -> A -> result S) (P : S -> Prop)
    (l : list A) (s s' : S) :
  (forall s x s', P s -> f s x = Ok s' -> P s') ->
  P s -> for_each f l s = Ok s' -> P s'.
Proof.
  intros Hf. revert s. induction l as [| x l IH]; intros s Hs; simpl.
  - by intros [= <-].
  - intros (s1 & H1 & H2)%bind_Ok. eauto.
Qed.

Lemma process_pair_last_run cfg now n ia n' :
  process_pair cfg now n ia = Ok n' -> last_run n' = last_run n.
Proof.
  destruct ia as [[indicator |] attrs]; simpl; [| by intros [= <-]].
  repeat (first [ progress simpl
                | discriminate
                | match goal with
                  | |- (match ?m with _ => _ end ≫= _) = Ok _ -> _ =>
                      destruct m
                  | |- (?m ≫= _) = Ok _ -> _ => destruct m
                  | |- (if ?b then _ else _) = Ok _ -> _ => destruct b
                  | |- Ok (if ?b then _ else _) = Ok _ -> _ => destruct b
                  end ]);
    by intros [= <-].
Qed.

Lemma polling_loop_last_run cfg now items n n' :
  _polling_loop cfg now items n = Ok n' -> last_run n' = last_run n.
Proof.
  unfold _polling_loop.
  apply (for_each_inv _ (fun m => last_run m = last_run n)); [| done].
  intros s [ipairs |] s' Hs; simpl; [| by intros [= <-]].
  apply (for_each_inv _ (fun m => last_run m = last_run n)); [| done].
  intros s1 ia s2 Hs1 H%process_pair_last_run. congruence.
Qed.

(** ** Sudden death *)

Lemma sudden_death_fold_emitted lr l n :
  emitted (foldl (sudden_death_step lr) n l) = emitted n.
Proof.
  revert n. induction l as [| [i v] l IH]; intros n; simpl; [done |].
  by rewrite IH.
Qed.

Lemma sudden_death_fold_other lr l n i :
  i ∉ l.*1 ->
  table (foldl (sudden_death_step lr) n l) !! i = table n !! i.
Proof.
  revert n. induction l as [| [j v] l IH]; intros n; simpl; [done |].
  intros Hi. apply not_elem_of_cons in Hi as [Hij Hi].
  rewrite IH by done. simpl. by apply lookup_insert_ne.
Qed.

Lemma sudden_death_fold_in lr l n i v :
  NoDup l.*1 -> (i, v) ∈ l ->
  table (foldl (sudden_death_step lr) n l) !! i
  = Some (<["_age_out" := VInt (lr - 1)]> v).
Proof.
  revert n. induction l as [| [j w] l IH]; intros n Hnd Hin; simpl.
  - by apply elem_of_nil in Hin.
  - simpl in Hnd. apply NoDup_cons in Hnd as [Hj Hnd].
    apply elem_of_cons in Hin as [Heq | Hin]; [| by apply IH].
    injection Heq as <- <-.
    rewrite sudden_death_fold_other by done. simpl. apply lookup_insert_eq.
Qed.

Lemma not_elem_of_query_fst attr k (t : gmap string record) i :
  (forall v, t !! i = Some v ->
     ~ exists x, v !! attr = Some (VInt x) /\ x <= k) ->
  i ∉ (query attr k t).*1.
Proof.
  intros H Hin. apply list_elem_of_fmap in Hin as ([j v] & -> & Hin).
  apply elem_of_query in Hin as [Ht Hx]. by apply (H v).
Qed.

(** C5: after a polling pass with [sudden_death] enabled and [last_run]
    set, the sudden-death scan sets [_age_out = last_run - 1] on every
    record with [_last_run <= last_run], and changes nothing else: every
    other record is as it was, no key is added or removed, and nothing is
    emitted. *)
Theorem sudden_death_forces_age_out (cfg : config) (now lr : Z)
    (items : list (result (list (option string * record)))) (n0 n : node) :
  sudden_death (age_out cfg) = true ->
  last_run n0 = Some lr ->
  _polling_loop cfg now items n0 = Ok n ->
  let n' := sudden_death_scan cfg n in
  (forall i v, table n !! i = Some v -> missed lr v ->
     table n' !! i = Some (<["_age_out" := VInt (lr - 1)]> v)) /\
  (forall i v, table n !! i = Some v -> ~ missed lr v ->
     table n' !! i = Some v) /\
  (forall i, table n !! i = None -> table n' !! i = None) /\
  emitted n' = emitted n.
Proof.
  intros Hsd Hlr Hpoll. apply polling_loop_last_run in Hpoll.
  unfold sudden_death_scan, _sudden_death. rewrite Hsd, Hpoll, Hlr. simpl.
  split; [| split; [| split]].
  - intros i v Ht Hm. apply sudden_death_fold_in; [apply NoDup_fst_query |].
    by apply elem_of_query.
  - intros i v Ht Hm. rewrite sudden_death_fold_other; [done |].
    apply not_elem_of_query_fst. intros v' Hv'.
    rewrite Ht in Hv'. injection Hv' as <-. exact Hm.
  - intros i Ht. rewrite sudden_death_fold_other; [done |].
    apply not_elem_of_query_fst. intros v' Hv'. congruence.
  - apply sudden_death_fold_emitted.
Qed.

(** ** Garbage collection *)

Lemma collect_fold_table (l : list string) n :
  table (foldl collect_step n l) = foldr delete (table n) l.
Proof.
  revert n. induction l as [| i l IH]; intros n; simpl; [done |].
  rewrite IH. simpl. clear IH. induction l as [| j l IH]; simpl; [done |].
  by rewrite IH, delete_delete.
Qed.

Lemma lookup_foldr_delete (l : list string) (t : gmap string record) i :
  foldr delete t l !! i = if decide (i ∈ l) then None else t !! i.
Proof.
  induction l as [| j l IH]; simpl; [done |].
  destruct (decide (j = i)) as [-> | Hne].
  - rewrite lookup_delete_eq. rewrite decide_True; [done | apply elem_of_cons; by left].
  - rewrite lookup_delete_ne by done. rewrite IH.
    destruct (decide (i ∈ l)).
    + rewrite decide_True; [done | apply elem_of_cons; by right].
    + rewrite decide_False; [done |].
      intros [? | ?]%elem_of_cons; congruence.
Qed.

#[global] Instance collectable_dec t0 v : Decision (collectable t0 v).
Proof.
  unfold collectable.
  destruct (v !! "_withdrawn") as [[| w | |] |];
    try (right; by intros (? & [=] & _)).
  destruct (decide (w <= t0 - 1)); [left; eauto |].
  right. intros (? & [= <-] & ?). done.
Defined.

Lemma collect_garbage_lookup t0 n i :
  table (_collect_garbage t0 n) !! i
  = match table n !! i with
    | Some v => if decide (collectable t0 v) then None else Some v
    | None => None
    end.
Proof.
  unfold _collect_garbage. rewrite collect_fold_table, lookup_foldr_delete.
  destruct (table n !! i) as [v |] eqn:Ht.
  - destruct (decide (collectable t0 v)) as [Hc | Hc].
    + rewrite decide_True; [done |].
      apply list_elem_of_fmap. exists (i, v). split; [done |].
      by apply elem_of_query.
    + rewrite decide_False; [done |].
      apply not_elem_of_query_fst. intros v' Hv'.
      rewrite Ht in Hv'. injection Hv' as <-. exact Hc.
  - by destruct (decide _).
Qed.

Lemma collect_garbage_emitted t0 n :
  emitted (_collect_garbage t0 n) = emitted n.
Proof.
  unfold _collect_garbage. generalize ((query "_withdrawn" (t0 - 1) (table n)).*1).
  intros l. revert n. induction l as [| i l IH]; intros n; simpl; [done |].
  by rewrite IH.
Qed.

(** C6: the garbage collection of a polling pass that started at [lastrun]
    deletes exactly the records with [_withdrawn <= lastrun - 1] and leaves
    the others as they are; a record withdrawn at [w >= lastrun] survives
    the pass, and a later collection at [t1] deletes it exactly when
    [w < t1]. *)
Theorem collect_garbage_deletes_exactly (cfg : config) (lastrun now : Z)
    (items : list (result (list (option string * record)))) (n0 n' : node) :
  run_pass cfg lastrun now items n0 = Ok n' ->
  exists n : node,
    (exists n1, _polling_loop cfg now items n0 = Ok n1 /\
                n = sudden_death_scan cfg n1) /\
    n' = _collect_garbage lastrun n /\
    (forall i v, table n !! i = Some v -> collectable lastrun v ->
       table n' !! i = None) /\
    (forall i v, table n !! i = Some v -> ~ collectable lastrun v ->
       table n' !! i = Some v) /\
    (forall i, table n !! i = None -> table n' !! i = None) /\
    (forall i v w, table n !! i = Some v ->
       v !! "_withdrawn" = Some (VInt w) -> lastrun <= w ->
       table n' !! i = Some v /\
       forall t1, table (_collect_garbage t1 n') !! i = None <-> w < t1) /\
    emitted n' = emitted n.
Proof.
  unfold run_pass. intros (n1 & Hpoll & [= <-])%bind_Ok.
  exists (sudden_death_scan cfg n1). set (n := sudden_death_scan cfg n1).
  split; [by exists n1 |]. split; [done |].
  assert (Hkeep : forall i v, table n !! i = Some v ->
            ~ collectable lastrun v ->
            table (_collect_garbage lastrun n) !! i = Some v).
  { intros i v Ht Hc. rewrite collect_garbage_lookup, Ht.
    by rewrite decide_False. }
  split; [| split; [done | split; [| split]]].
  - intros i v Ht Hc. rewrite collect_garbage_lookup, Ht.
    by rewrite decide_True.
  - intros i Ht. by rewrite collect_garbage_lookup, Ht.
  - intros i v w Ht Hw Hle.
    assert (Hnc : ~ collectable lastrun v).
    { intros (w' & Hw' & Hle'). rewrite Hw in Hw'. injection Hw' as <-. lia. }
    split; [by apply Hkeep |]. intros t1.
    rewrite collect_garbage_lookup, (Hkeep i v Ht Hnc).
    destruct (decide (collectable t1 v)) as [(w' & Hw' & Hle') | Hc].
    + rewrite Hw in Hw'. injection Hw' as <-. split; [lia | done].
    + split; [done |]. intros Hlt. exfalso. apply Hc. exists w. split; [done | lia].
  - apply collect_garbage_emitted.
Qed.

(** ** Classification and the polling loop *)

Lemma IndicatorStatus_init_cv indicator (t : gmap string record) now thr st :
  IndicatorStatus_init indicator t now thr = Ok st -> cv st = t !! indicator.
Proof.
  unfold IndicatorStatus_init. destruct (t !! indicator) as [r |].
  - destruct (r !! "_age_out"); simpl; [| done].
    destruct (r !! "_last_run"); simpl; [| done]. by intros [= <-].
  - by intros [= <-].
Qed.

Lemma compare_attributes_true (oa na : record) :
  _compare_attributes oa na = true <->
  forall k x, na !! k = Some x -> py_get oa k = x.
Proof.
  unfold _compare_attributes. rewrite List.forallb_forall. split.
  - intros H k x Hk. apply elem_of_map_to_list, list_elem_of_In in Hk.
    specialize (H _ Hk). simpl in H. by apply value_eqb_eq.
  - intros H [k x] Hk%list_elem_of_In%elem_of_map_to_list. simpl.
    apply value_eqb_eq. by apply H.
Qed.

Lemma compare_attributes_false (oa na : record) :
  _compare_attributes oa na = false <-> differs oa na.
Proof.
  unfold differs. split.
  - intros Hf. unfold _compare_attributes in Hf.
    assert (Hl : forall k x, (k, x) ∈ map_to_list na -> na !! k = Some x)
      by (intros k x Hin; by apply elem_of_map_to_list).
    revert Hf Hl. generalize (map_to_list na).
    intros l. induction l as [| [k x] l IH]; simpl; [done |].
    destruct (value_eqb (py_get oa k) x) eqn:E; simpl; intros Hf Hl.
    + apply IH; [done |]. intros i y Hin.
      apply Hl, elem_of_cons. by right.
    + exists k, x. split; [| by apply value_eqb_neq].
      apply Hl, elem_of_cons. by left.
  - intros (k & x & Hk & Hne). apply not_true_iff_false.
    rewrite compare_attributes_true. intros H. apply Hne. by apply H.
Qed.

(** C2, as amended: for an observation classified as not in the feed, the
    poller stores the template overlaid with [sources = [source_name]] and
    [first_seen = last_seen = _last_run = now], overlaid with the observed
    attributes, with [_age_out] from the policy, and emits exactly one
    update carrying that record.  Each of the four keys has the poller's
    value when the observed map does not contain it, and every observed
    attribute other than [_age_out] is stored as observed. *)
Theorem fresh_observation_record (cfg : config) (now : Z) (n : node)
    (indicator : string) (attrs : record) (st : IndicatorStatus) (a : Z) :
  IndicatorStatus_init indicator (table n) now (in_feed_threshold cfg now n)
    = Ok st ->
  in_states (state st) [NX; NFNANW; NFXANW; NFXAXW; NFNAXW] = true ->
  _calc_age_out (age_out cfg) (fresh_value cfg now attrs) = Ok a ->
  exists (n' : node) (v : record),
    process_pair cfg now n (Some indicator, attrs) = Ok n' /\
    v = <["_age_out" := VInt a]> (fresh_value cfg now attrs) /\
    table n' = <[indicator := v]> (table n) /\
    emitted n' = emitted n ++ [Update indicator v] /\
    v !! "_age_out" = Some (VInt a) /\
    (attrs !! "sources" = None ->
       v !! "sources" = Some (VList [VStr (source_name cfg)])) /\
    (attrs !! "first_seen" = None -> v !! "first_seen" = Some (VInt now)) /\
    (attrs !! "last_seen" = None -> v !! "last_seen" = Some (VInt now)) /\
    (attrs !! "_last_run" = None -> v !! "_last_run" = Some (VInt now)) /\
    (forall k x, k <> "_age_out" -> attrs !! k = Some x -> v !! k = Some x).
Proof.
  intros Hst Hin Hao. unfold process_pair.
  fold (in_feed_threshold cfg now n). rewrite Hst, bind_Ok_l, Hin.
  fold (fresh_value cfg now attrs). rewrite Hao, bind_Ok_l.
  eexists _, _. split; [reflexivity |]. split; [reflexivity |].
  split; [reflexivity |]. split; [reflexivity |].
  split; [apply lookup_insert_eq |].
  unfold fresh_value.
  repeat split.
  - intros Hk. rewrite lookup_insert_ne by done.
    rewrite lookup_union_r by done. by simplify_map_eq.
  - intros Hk. rewrite lookup_insert_ne by done.
    rewrite lookup_union_r by done. by simplify_map_eq.
  - intros Hk. rewrite lookup_insert_ne by done.
    rewrite lookup_union_r by done. by simplify_map_eq.
  - intros Hk. rewrite lookup_insert_ne by done.
    rewrite lookup_union_r by done. by simplify_map_eq.
  - intros k x Hne Hk. rewrite lookup_insert_ne by done.
    by apply lookup_union_Some_l.
Qed.

Lemma fresh_observation_record_witness :
  exists (n' : node) (v : record),
    process_pair scenario_config 1000 empty_node (Some "1.2.3.4", scenario_attrs)
      = Ok n' /\
    emitted n' = [Update "1.2.3.4" v] /\
    v !! "sources" = Some (VList [VStr "src"]) /\
    v !! "first_seen" = Some (VInt 1000) /\
    v !! "_age_out" = Some (VInt _MAX_AGE_OUT).
Proof.
  destruct (fresh_observation_record scenario_config 1000 empty_node
              "1.2.3.4" scenario_attrs {| cv := None; state := NX |}
              _MAX_AGE_OUT)
    as (n' & v & Hp & _ & _ & He & Ha & Hs & Hf & _);
    [reflexivity | reflexivity | reflexivity |].
  exists n', v. split; [exact Hp |]. split; [exact He |].
  split; [apply Hs; reflexivity |]. split; [apply Hf; reflexivity | exact Ha].
Defined.

(** C2 as stated fails: observed [sources] and [first_seen] override the
    poller's values, because the observed attributes are overlaid last. *)
Lemma fresh_observation_overridden :
  let attrs : record :=
    {[ "first_seen" := VInt 5; "sources" := VList [VStr "other"] ]} in
  exists (st : IndicatorStatus) (n' : node) (v : record),
    IndicatorStatus_init "1.2.3.4" (table empty_node) 1000
      (in_feed_threshold scenario_config 1000 empty_node) = Ok st /\
    state st = NX /\
    process_pair scenario_config 1000 empty_node (Some "1.2.3.4", attrs)
      = Ok n' /\
    table n' !! "1.2.3.4" = Some v /\
    emitted n' = [Update "1.2.3.4" v] /\
    v !! "first_seen" = Some (VInt 5) /\
    v !! "first_seen" <> Some (VInt 1000) /\
    v !! "sources" = Some (VList [VStr "other"]) /\
    v !! "sources" <> Some (VList [VStr (source_name scenario_config)]).
Proof.
  intros attrs. exists {| cv := None; state := NX |}.
  eexists _, _. split; [reflexivity |]. split; [reflexivity |].
  split; [reflexivity |]. split; [reflexivity |]. split; [reflexivity |].
  split; [reflexivity |]. split; [discriminate |].
  split; [reflexivity | discriminate].
Qed.

Lemma process_pair_in_feed cfg now n indicator attrs st v a :
  table n !! indicator = Some v ->
  IndicatorStatus_init indicator (table n) now (in_feed_threshold cfg now n)
    = Ok st ->
  state st = XFNANW ->
  _calc_age_out (age_out cfg) (merged_value now v attrs) = Ok a ->
  let v' := <["_age_out" := VInt a]> (merged_value now v attrs) in
  process_pair cfg now n (Some indicator, attrs)
  = Ok (if _compare_attributes v attrs then table_put indicator v' n
        else emit_update indicator v' (table_put indicator v' n)).
Proof.
  intros Ht Hst Hs Hao. unfold process_pair.
  fold (in_feed_threshold cfg now n). rewrite Hst, bind_Ok_l.
  rewrite (IndicatorStatus_init_cv _ _ _ _ _ Hst), Ht, Hs.
  change (in_states XFNANW [NX; NFNANW; NFXANW; NFXAXW; NFNAXW]) with false.
  change (XFNANW =? XFNANW) with true. cbv beta iota.
  change (of_option (Some v)) with (Ok v). rewrite bind_Ok_l.
  fold (merged_value now v attrs). rewrite Hao, bind_Ok_l. done.
Qed.

(** C4: for an observation whose indicator is present and in the feed
    (state DF), the poller sets [_last_run = now], merges the observed
    attributes, sets [_age_out] from the policy and writes the record back;
    an update carrying the record is emitted if and only if some observed
    attribute differs from the value stored under its key. *)
Theorem in_feed_observation_update (cfg : config) (now : Z) (n : node)
    (indicator : string) (attrs : record) (st : IndicatorStatus)
    (v : record) (a : Z) :
  table n !! indicator = Some v ->
  IndicatorStatus_init indicator (table n) now (in_feed_threshold cfg now n)
    = Ok st ->
  state st = XFNANW ->
  _calc_age_out (age_out cfg) (merged_value now v attrs) = Ok a ->
  exists (n' : node) (v' : record),
    process_pair cfg now n (Some indicator, attrs) = Ok n' /\
    v' = <["_age_out" := VInt a]> (attrs ∪ <["_last_run" := VInt now]> v) /\
    table n' = <[indicator := v']> (table n) /\
    (attrs !! "_last_run" = None -> v' !! "_last_run" = Some (VInt now)) /\
    v' !! "_age_out" = Some (VInt a) /\
    (forall k x, k <> "_age_out" -> attrs !! k = Some x -> v' !! k = Some x) /\
    ((differs v attrs /\ emitted n' = emitted n ++ [Update indicator v']) \/
     (~ differs v attrs /\ emitted n' = emitted n)).
Proof.
  intros Ht Hst Hs Hao.
  pose proof (process_pair_in_feed _ _ _ _ _ _ _ _ Ht Hst Hs Hao) as Hp.
  cbv zeta in Hp. eexists _, _. split; [exact Hp |].
  split; [reflexivity |].
  split; [by destruct (_compare_attributes v attrs) |].
  split; [| split; [apply lookup_insert_eq | split]].
  - intros Hk. rewrite lookup_insert_ne by done. unfold merged_value.
    rewrite lookup_union_r by done. apply lookup_insert_eq.
  - intros k x Hne Hk. rewrite lookup_insert_ne by done.
    by apply lookup_union_Some_l.
  - destruct (_compare_attributes v attrs) eqn:E.
    + right. split; [| done]. intros Hd%compare_attributes_false. congruence.
    + left. split; [by apply compare_attributes_false | done].
Qed.

(** C10: in state DF, every attribute of the stored record that the
    observation does not carry is kept as it was (the poller itself rewrites
    only [_last_run] and [_age_out]), and the comparison looks only at the
    observed keys: when the observed attributes agree with the stored ones
    no update is emitted, whatever else the stored record holds, and two
    stored records that agree on the observed keys compare alike. *)
Theorem in_feed_stored_only_keys (cfg : config) (now : Z) (n : node)
    (indicator : string) (attrs : record) (st : IndicatorStatus)
    (v : record) (a : Z) :
  table n !! indicator = Some v ->
  IndicatorStatus_init indicator (table n) now (in_feed_threshold cfg now n)
    = Ok st ->
  state st = XFNANW ->
  _calc_age_out (age_out cfg) (merged_value now v attrs) = Ok a ->
  exists (n' : node) (v' : record),
    process_pair cfg now n (Some indicator, attrs) = Ok n' /\
    table n' !! indicator = Some v' /\
    (forall k, attrs !! k = None -> k <> "_last_run" -> k <> "_age_out" ->
       v' !! k = v !! k) /\
    ((forall k x, attrs !! k = Some x -> py_get v k = x) ->
       emitted n' = emitted n) /\
    (forall w : record,
       (forall k, is_Some (attrs !! k) -> py_get w k = py_get v k) ->
       _compare_attributes w attrs = _compare_attributes v attrs).
Proof.
  intros Ht Hst Hs Hao.
  pose proof (process_pair_in_feed _ _ _ _ _ _ _ _ Ht Hst Hs Hao) as Hp.
  cbv zeta in Hp. eexists _, _. split; [exact Hp |].
  split; [| split; [| split]].
  - destruct (_compare_attributes v attrs); simpl; apply lookup_insert_eq.
  - intros k Hk H1 H2. rewrite lookup_insert_ne by done. unfold merged_value.
    rewrite lookup_union_r by done. by rewrite lookup_insert_ne.
  - intros Hagree. apply compare_attributes_true in Hagree.
    by rewrite Hagree.
  - intros w Hw. destruct (_compare_attributes v attrs) eqn:E.
    + apply compare_attributes_true. intros k x Hk.
      rewrite Hw by eauto. revert k x Hk. by apply compare_attributes_true.
    + apply compare_attributes_false.
      apply compare_attributes_false in E as (k & x & Hk & Hne).
      exists k, x. split; [done |]. by rewrite Hw by eauto.
Qed.

Lemma in_feed_observation_update_witness :
  exists (n' : node) (v' : record),
    process_pair scenario_config 2000 seen_node
      (Some "1.2.3.4", {[ "confidence" := VInt 70 ]}) = Ok n' /\
    table n' !! "1.2.3.4" = Some v' /\
    v' !! "confidence" = Some (VInt 70) /\
    emitted n' = [Update "1.2.3.4" v'].
Proof.
  destruct (in_feed_observation_update scenario_config 2000 seen_node
              "1.2.3.4" {[ "confidence" := VInt 70 ]}
              {| cv := Some seen_record; state := XFNANW |}
              seen_record _MAX_AGE_OUT)
    as (n' & v' & Hp & _ & Ht & _ & _ & Hobs & Hem);
    [reflexivity | reflexivity | reflexivity | reflexivity |].
  exists n', v'. split; [exact Hp |].
  split; [rewrite Ht; apply lookup_insert_eq |].
  split; [apply Hobs; [discriminate | reflexivity] |].
  destruct Hem as [[_ He] | [Hnd _]]; [exact He |].
  exfalso. apply Hnd. exists "confidence", (VInt 70).
  split; [reflexivity | discriminate].
Defined.

Lemma in_feed_stored_only_keys_witness :
  exists (n' : node) (v' : record),
    process_pair scenario_config 2000 seen_node
      (Some "1.2.3.4", {[ "confidence" := VInt 50 ]}) = Ok n' /\
    table n' !! "1.2.3.4" = Some v' /\
    v' !! "type" = Some (VStr "IPv4") /\
    emitted n' = [].
Proof.
  destruct (in_feed_stored_only_keys scenario_config 2000 seen_node
              "1.2.3.4" {[ "confidence" := VInt 50 ]}
              {| cv := Some seen_record; state := XFNANW |}
              seen_record _MAX_AGE_OUT)
    as (n' & v' & Hp & Ht & Hkeep & Hem & _);
    [reflexivity | reflexivity | reflexivity | reflexivity |].
  exists n', v'. split; [exact Hp |]. split; [exact Ht |].
  split; [rewrite Hkeep; [reflexivity | reflexivity | discriminate ..] |].
  apply Hem. intros k x Hk.
  apply lookup_singleton_Some in Hk as [<- <-]. reflexivity.
Defined.

Lemma sudden_death_forces_age_out_witness :
  table (sudden_death_scan scenario_config seen_node) !! "1.2.3.4"
  = Some (<["_age_out" := VInt 999]> seen_record).
Proof.
  destruct (sudden_death_forces_age_out scenario_config 2000 1000 []
              seen_node seen_node) as (Hm & _);
    [reflexivity | reflexivity | reflexivity |].
  apply Hm; [reflexivity |]. exists 1000. split; [reflexivity | lia].
Defined.

Lemma collect_garbage_deletes_exactly_witness :
  exists n' : node,
    run_pass scenario_config 2000 2000 [] withdrawn_node = Ok n' /\
    table n' !! "1.2.3.4" = None /\
    table n' !! "5.6.7.8" = Some (<["_withdrawn" := VInt 3000]> seen_record).
Proof.
  eexists. split; [reflexivity |].
  destruct (collect_garbage_deletes_exactly scenario_config 2000 2000 []
              withdrawn_node _ eq_refl)
    as (n & (n1 & [= <-] & ->) & _ & Hdel & _ & _ & Hsurv & _).
  split.
  - apply (Hdel _ (<["_withdrawn" := VInt 500]> seen_record)); [reflexivity |].
    exists 500. split; [reflexivity | lia].
  - apply (Hsurv _ _ 3000); [reflexivity | reflexivity | lia].
Defined.

End PollerFacts.

(** * Properties of the observable decoder *)

Section TaxiiFacts.
Import Taxii.

Lemma entries_get_set k x d : entries_get (entries_set k x d) k = Some x.
Proof.
  induction d as [| [k' y] d IH]; simpl.
  - by rewrite String.eqb_refl.
  - destruct (String.eqb k' k) eqn:E; simpl.
    + by rewrite String.eqb_refl.
    + by rewrite E.
Qed.

Lemma entries_get_set_ne k k' x d :
  k <> k' -> entries_get (entries_set k x d) k' = entries_get d k'.
Proof.
  intros Hne. induction d as [| [j y] d IH]; simpl.
  - apply String.eqb_neq in Hne. by rewrite Hne.
  - destruct (String.eqb j k) eqn:E; simpl.
    + apply String.eqb_eq in E as ->.
      apply String.eqb_neq in Hne. by rewrite Hne.
    + by rewrite IH.
Qed.

Lemma take_value_type op key res r t :
  take_value op key res = Ok (ODict r) ->
  entries_get res "type" = Some t ->
  entries_get r "type" = Some t.
Proof.
  unfold take_value. destruct (get op key) as [ov |]; simpl; [| done].
  destruct (is_None ov); [done |].
  destruct (if not_str ov then get ov "value" else Ok ov) as [ov' |];
    simpl; [| done].
  destruct (is_None ov'); [done |]. intros [= <-] Ht.
  by rewrite entries_get_set_ne.
Qed.

Lemma take_value_direction op key res r :
  take_value op key res = Ok (ODict r) ->
  entries_get r "direction" = entries_get res "direction".
Proof.
  unfold take_value. destruct (get op key) as [ov |]; simpl; [| done].
  destruct (is_None ov); [done |].
  destruct (if not_str ov then get ov "value" else Ok ov) as [ov' |];
    simpl; [| done].
  destruct (is_None ov'); [done |]. intros [= <-].
  by rewrite entries_get_set_ne.
Qed.

(** Every Address object that decodes to a dictionary gets [type = IPv4],
    whatever its category, and its direction follows [is_source]. *)
Lemma decode_address_always_IPv4 (o : observable) (op : obj)
    (r : list (string * obj)) :
  is_address o op ->
  _decode_observable o = Ok (ODict r) ->
  entries_get r "type" = Some (OStr "IPv4") /\
  (get op "is_source" = Ok (OBool true) ->
     entries_get r "direction" = Some (OStr "inbound")) /\
  (get op "is_source" = Ok (OBool false) ->
     entries_get r "direction" = Some (OStr "outbound")).
Proof.
  intros (Hid & (oc & Hoc & Hcomp) & (oo & Hoo & Hop) & Hot).
  unfold _decode_observable. rewrite Hid, Hoc. simpl. rewrite Hcomp, Hoo. simpl.
  destruct (is_None oo); [done |]. rewrite Hop. simpl.
  destruct (is_None op); [done |]. rewrite Hot. simpl.
  destruct (get op "category") as [addrcat |]; simpl; [| done].
  destruct (get op "is_source") as [source |]; simpl; [| done].
  intros Hr. split; [| split].
  - eapply take_value_type; [exact Hr |].
    destruct source as [| [|] | | |]; destruct (eq_str addrcat "ipv6-addr");
      reflexivity.
  - intros [= ->]. rewrite (take_value_direction _ _ _ _ Hr).
    by destruct (eq_str addrcat "ipv6-addr").
  - intros [= ->]. rewrite (take_value_direction _ _ _ _ Hr).
    by destruct (eq_str addrcat "ipv6-addr").
Qed.

(** C7: an Address object of category [ipv6-addr] is decoded with
    [type = IPv4], not [IPv6]: the assignment of [IPv6] is overwritten by
    the unconditional assignment that follows it.  The direction is as
    claimed. *)
Theorem decode_ipv6_address_gets_IPv4 :
  _decode_observable
    (address_observable (OStr "ipv6-addr") (OBool true) (OStr "2001:db8::1"))
  = Ok (ODict [("type", OStr "IPv4"); ("direction", OStr "inbound");
               ("indicator", OStr "2001:db8::1")]).
Proof. reflexivity. Qed.

End TaxiiFacts.

(** * Properties of the IPv4 aggregator *)

Section IpopText.
Import Ipop.

(** ** Text of IPv4 addresses *)

Lemma contains_app c a b :
  contains c (a +:+ b) = contains c a || contains c b.
Proof.
  induction a as [| x a IH]; simpl; [done |].
  by rewrite IH, orb_assoc.
Qed.

Lemma split_no c s : contains c s = false -> split c s = [s].
Proof.
  induction s as [| a s IH]; simpl; [done |].
  intros [Ha Hs]%orb_false_elim. rewrite Ha, IH by done. done.
Qed.

Lemma split_app c a rest :
  contains c a = false -> split c (a +:+ String c rest) = a :: split c rest.
Proof.
  induction a as [| x a IH]; simpl.
  - intros _. by rewrite Ascii.eqb_refl.
  - intros [Hx Ha]%orb_false_elim. rewrite Hx, IH by done. done.
Qed.

Lemma split1_no c s : contains c s = false -> split1 c s = (s, None).
Proof.
  induction s as [| a s IH]; simpl; [done |].
  intros [Ha Hs]%orb_false_elim. rewrite Ha, IH by done. done.
Qed.

Lemma split1_app c a rest :
  contains c a = false -> split1 c (a +:+ String c rest) = (a, Some rest).
Proof.
  induction a as [| x a IH]; simpl.
  - intros _. by rewrite Ascii.eqb_refl.
  - intros [Hx Ha]%orb_false_elim. rewrite Hx, IH by done. done.
Qed.

Lemma parse_decimal_decimal n : parse_decimal (decimal n) = Some n.
Proof.
  unfold parse_decimal, decimal at 1. rewrite NilEmpty.usu.
  rewrite DecimalN.Unsigned.of_to. by rewrite String.eqb_refl.
Qed.

(** A numeral has digits only. *)
Definition is_digit (c : ascii) : bool :=
  (48 <=? N_of_ascii c)%N && (N_of_ascii c <=? 57)%N.

Lemma contains_string_of_uint c d :
  is_digit c = false -> contains c (NilEmpty.string_of_uint d) = false.
Proof.
  intros Hc. induction d; cbn [NilEmpty.string_of_uint contains]; [done | ..];
    rewrite IHd, orb_false_r; apply Ascii.eqb_neq; intros <-; discriminate.
Qed.

Lemma contains_decimal c n : is_digit c = false -> contains c (decimal n) = false.
Proof. apply contains_string_of_uint. Qed.

Lemma int_to_str_eq n :
  int_to_str n
  = decimal (Z.to_N (Z.shiftr n 24)) +:+
    String "." (decimal (Z.to_N (Z.land (Z.shiftr n 16) 255)) +:+
    String "." (decimal (Z.to_N (Z.land (Z.shiftr n 8) 255)) +:+
    String "." (decimal (Z.to_N (Z.land n 255))))).
Proof. reflexivity. Qed.

Lemma contains_int_to_str c n :
  is_digit c = false -> c <> "."%char -> contains c (int_to_str n) = false.
Proof.
  intros Hc Hdot. rewrite int_to_str_eq.
  apply not_eq_sym, Ascii.eqb_neq in Hdot.
  rewrite !contains_app. cbn [contains]. rewrite !contains_app.
  cbn [contains]. rewrite !contains_app. cbn [contains].
  by rewrite Hdot, !contains_decimal.
Qed.

Lemma octet_decimal x : 0 <= x <= 255 -> octet (decimal (Z.to_N x)) = Some x.
Proof.
  intros Hx. unfold octet. rewrite parse_decimal_decimal. simpl.
  rewrite Z2N.id by lia. destruct (Z.leb_spec x 255); [done | lia].
Qed.

Lemma testbit_255 i : 0 <= i -> Z.testbit 255 i = (i <? 8).
Proof.
  intros Hi. change 255 with (Z.ones 8). rewrite Z.testbit_ones_nonneg by lia.
  done.
Qed.

Lemma land_255_bounds x : 0 <= Z.land x 255 <= 255.
Proof.
  assert (Z.land x 255 = x mod 256) as ->.
  { change 255 with (Z.ones 8). rewrite Z.land_ones by lia. done. }
  pose proof (Z.mod_pos_bound x 256 ltac:(lia)). lia.
Qed.

Lemma testbit_octet n k i :
  0 <= k -> 0 <= i ->
  Z.testbit (Z.shiftl (Z.land (Z.shiftr n k) 255) k) i
  = Z.testbit n i && (k <=? i) && (i <? k + 8).
Proof.
  intros Hk Hi. rewrite Z.shiftl_spec by lia.
  destruct (Z.leb_spec k i) as [Hle | Hlt].
  - rewrite Z.land_spec, Z.shiftr_spec, testbit_255 by lia.
    replace (i - k + k) with i by lia. rewrite andb_true_r. f_equal.
    destruct (Z.ltb_spec (i - k) 8), (Z.ltb_spec i (k + 8)); done || lia.
  - rewrite Z.testbit_neg_r by lia. by rewrite andb_false_r.
Qed.

Lemma testbit_top n k i :
  0 <= k -> 0 <= i ->
  Z.testbit (Z.shiftl (Z.shiftr n k) k) i = Z.testbit n i && (k <=? i).
Proof.
  intros Hk Hi. rewrite Z.shiftl_spec by lia.
  destruct (Z.leb_spec k i) as [Hle | Hlt].
  - rewrite Z.shiftr_spec by lia. replace (i - k + k) with i by lia.
    by rewrite andb_true_r.
  - rewrite Z.testbit_neg_r by lia. by rewrite andb_false_r.
Qed.

Lemma octets_join n :
  Z.lor (Z.shiftl (Z.shiftr n 24) 24)
    (Z.lor (Z.shiftl (Z.land (Z.shiftr n 16) 255) 16)
       (Z.lor (Z.shiftl (Z.land (Z.shiftr n 8) 255) 8) (Z.land n 255))) = n.
Proof.
  apply Z.bits_inj'. intros i Hi.
  rewrite !Z.lor_spec, testbit_top, !testbit_octet by lia.
  rewrite Z.land_spec, testbit_255 by lia.
  destruct (Z.testbit n i); simpl; [| done].
  destruct (Z.leb_spec 24 i), (Z.leb_spec 16 i), (Z.leb_spec 8 i),
    (Z.ltb_spec i (16 + 8)), (Z.ltb_spec i (8 + 8)), (Z.ltb_spec i 8);
    simpl; done || lia.
Qed.

Lemma str_to_int_int_to_str n : is_ipv4 n -> str_to_int (int_to_str n) = Some n.
Proof.
  intros Hn. unfold str_to_int. rewrite int_to_str_eq.
  rewrite !split_app by (by apply contains_decimal).
  rewrite split_no by (by apply contains_decimal).
  assert (H24 : 0 <= Z.shiftr n 24 <= 255).
  { rewrite Z.shiftr_div_pow2 by lia. unfold is_ipv4 in Hn. split.
    - apply Z.div_pos; lia.
    - assert (n / 2 ^ 24 < 256); [| lia].
      apply Z.div_lt_upper_bound; lia. }
  rewrite !octet_decimal by (done || apply land_255_bounds).
  simpl. by rewrite octets_join.
Qed.

Lemma range_from_range_text a b :
  is_ipv4 a -> is_ipv4 b ->
  _range_from_indicator (int_to_str a +:+ "-" +:+ int_to_str b) = Ok (a, b).
Proof.
  intros Ha Hb. unfold _range_from_indicator.
  change (int_to_str a +:+ "-" +:+ int_to_str b)
    with (int_to_str a +:+ String "-" (int_to_str b)).
  rewrite contains_app. cbn [contains]. rewrite Ascii.eqb_refl, orb_true_r.
  rewrite split1_app by (by apply contains_int_to_str).
  rewrite str_to_int_int_to_str by done.
  cbn [of_option mbind option_bind result_bind].
  by rewrite str_to_int_int_to_str.
Qed.

Lemma range_from_single_text a :
  is_ipv4 a -> _range_from_indicator (int_to_str a) = Ok (a, a).
Proof.
  intros Ha. unfold _range_from_indicator.
  rewrite !contains_int_to_str by done.
  by rewrite str_to_int_int_to_str.
Qed.

Lemma range_from_cidr_text a p :
  is_ipv4 a -> 0 <= p <= 32 ->
  _range_from_indicator (int_to_str a +:+ "/" +:+ decimal (Z.to_N p))
  = Ok (a, a + size p - 1).
Proof.
  intros Ha Hp. unfold _range_from_indicator.
  change (int_to_str a +:+ "/" +:+ decimal (Z.to_N p))
    with (int_to_str a +:+ String "/" (decimal (Z.to_N p))).
  rewrite !contains_app. cbn [contains].
  rewrite !contains_int_to_str, !contains_decimal by done.
  rewrite Ascii.eqb_refl. change (Ascii.eqb "/" "-") with false.
  cbn [orb]. unfold IPNetwork.
  rewrite split1_app by (by apply contains_int_to_str).
  rewrite str_to_int_int_to_str by done.
  cbn [mbind option_bind]. rewrite parse_decimal_decimal.
  cbn [mbind option_bind]. rewrite Z2N.id by lia.
  destruct (Z.leb_spec p 32); [done | lia].
Qed.

(** C9: for every well-formed IPv4 indicator (single address, CIDR block,
    hyphenated range), [_range_from_indicator] returns a pair
    [(start, end)], and parsing the dotted-quad text ["start-end"] of that
    pair, as [MWUpdate] writes it, returns the same pair. *)
Theorem range_indicator_round_trip (i : string) :
  well_formed_indicator i ->
  exists s e : Z,
    _range_from_indicator i = Ok (s, e) /\
    forall ids : gset string,
      _range_from_indicator
        (indicator {| start := s; end_ := e; uuids := ids |}) = Ok (s, e).
Proof.
  intros [a Ha | a p Ha Hp He | a b Ha Hb].
  - exists a, a. split; [exact (range_from_single_text a Ha) |].
    intros ids. exact (range_from_range_text a a Ha Ha).
  - exists a, (a + size p - 1).
    split; [exact (range_from_cidr_text a p Ha Hp) |].
    intros ids. exact (range_from_range_text a _ Ha He).
  - exists a, b. split; [exact (range_from_range_text a b Ha Hb) |].
    intros ids. exact (range_from_range_text a b Ha Hb).
Qed.

Lemma range_indicator_round_trip_witness :
  exists s e : Z,
    _range_from_indicator "10.0.0.0/24" = Ok (s, e) /\
    forall ids : gset string,
      _range_from_indicator
        (indicator {| start := s; end_ := e; uuids := ids |}) = Ok (s, e).
Proof.
  apply (range_indicator_round_trip "10.0.0.0/24").
  apply (wf_cidr 167772160 24); unfold is_ipv4; repeat split;
    vm_compute; congruence.
Defined.

End IpopText.

(** * Properties of the range computation and of withdrawals *)

Section RangeFacts.
Import Ipop.

Variable WL_LEVEL : Z.

(** ** The endpoints of a window *)

Lemma elem_of_endpoints (s : list interval) (e : Z) :
  e ∈ endpoints s <-> exists i, i ∈ s /\ (e = iv_start i \/ e = iv_end i).
Proof.
  unfold endpoints. rewrite list_elem_of_bind. split.
  - intros (i & He & Hi). exists i. split; [done |].
    apply elem_of_cons in He as [-> | He]; [by left |].
    apply elem_of_cons in He as [-> | He]; [by right |].
    by apply elem_of_nil in He.
  - intros (i & Hi & [-> | ->]); exists i; split; try done.
    + apply elem_of_cons. by left.
    + apply elem_of_cons. right. apply elem_of_cons. by left.
Qed.

Lemma elem_of_window_endpoints (s : list interval) (lo hi : option Z) (e : Z) :
  e ∈ window_endpoints s lo hi <->
  e ∈ endpoints s /\ window_lo lo <= e <= window_hi hi.
Proof.
  unfold window_endpoints, query_endpoints, window_lo, window_hi.
  rewrite merge_sort_Permutation, elem_of_elements, elem_of_list_to_set.
  rewrite merge_sort_Permutation, list_elem_of_filter.
  unfold in_window. rewrite andb_true_iff, Z.leb_le, Z.leb_le. tauto.
Qed.

Lemma window_endpoints_sorted (s : list interval) (lo hi : option Z) :
  StronglySorted Z.le (window_endpoints s lo hi).
Proof. unfold window_endpoints. apply StronglySorted_merge_sort; apply _. Qed.

Lemma window_endpoints_NoDup (s : list interval) (lo hi : option Z) :
  NoDup (window_endpoints s lo hi).
Proof.
  unfold window_endpoints. rewrite merge_sort_Permutation. apply NoDup_elements.
Qed.

(** ** The loop over the intervals that cover an endpoint *)

Lemma cover_loop_spec (epaddr first : Z) (l : list interval)
    (a0 a : at_endpoint) :
  for_each (cover_step epaddr first) l a0 = Ok a ->
  eplevel a0 <= eplevel a /\
  (forall c, c ∈ l -> iv_level c <= eplevel a) /\
  start_ids a0 ⊆ start_ids a /\
  end_ids a0 ⊆ end_ids a /\
  (forall c, c ∈ l -> iv_start c = epaddr -> iv_id c ∈ start_ids a) /\
  (forall c, c ∈ l -> iv_end c = epaddr -> iv_id c ∈ end_ids a) /\
  live a0 ⊆ live a.
Proof.
  revert a0. induction l as [| c l IH]; intros a0; simpl.
  - intros [= <-]. repeat split; try done; by intros c ?%elem_of_nil.
  - intros (a1 & Hstep & Hrest)%bind_Ok.
    destruct (IH _ Hrest) as (Hlev & Hall & Hs & He & Hsin & Hein & Hlive).
    assert (H1 : eplevel a0 <= eplevel a1 /\ iv_level c <= eplevel a1 /\
                 start_ids a0 ⊆ start_ids a1 /\ end_ids a0 ⊆ end_ids a1 /\
                 (iv_start c = epaddr -> iv_id c ∈ start_ids a1) /\
                 (iv_end c = epaddr -> iv_id c ∈ end_ids a1) /\
                 live a0 ⊆ live a1).
    { unfold cover_step in Hstep.
      assert (Hl : eplevel a0 <=
                   (if iv_level c >? eplevel a0 then iv_level c else eplevel a0)
                   /\ iv_level c <=
                   (if iv_level c >? eplevel a0 then iv_level c else eplevel a0)).
      { destruct (Z.gtb_spec (iv_level c) (eplevel a0)); lia. }
      assert (Hst : start_ids a0 ⊆
                    (if iv_start c =? epaddr then start_ids a0 ∪ {[iv_id c]}
                     else start_ids a0) /\
                    (iv_start c = epaddr ->
                     iv_id c ∈ (if iv_start c =? epaddr
                                then start_ids a0 ∪ {[iv_id c]}
                                else start_ids a0))).
      { destruct (Z.eqb_spec (iv_start c) epaddr); split; set_solver. }
      assert (Hen : end_ids a0 ⊆
                    (if iv_end c =? epaddr then end_ids a0 ∪ {[iv_id c]}
                     else end_ids a0) /\
                    (iv_end c = epaddr ->
                     iv_id c ∈ (if iv_end c =? epaddr
                                then end_ids a0 ∪ {[iv_id c]}
                                else end_ids a0))).
      { destruct (Z.eqb_spec (iv_end c) epaddr); split; set_solver. }
      destruct (negb (iv_end c =? epaddr) && negb (iv_start c =? epaddr)).
      - destruct (decide (iv_id c ∈ live a0)).
        + injection Hstep as <-. simpl. intuition.
        + destruct (epaddr =? first); [| done].
          injection Hstep as <-. simpl. intuition. set_solver.
      - injection Hstep as <-. simpl. intuition. }
    destruct H1 as (H1a & H1b & H1c & H1d & H1e & H1f & H1g).
    split; [lia |]. split.
    { intros c' [-> | Hin]%elem_of_cons; [lia | by apply Hall]. }
    split; [set_solver |]. split; [set_solver |]. split.
    { intros c' [-> | Hin]%elem_of_cons Hc'; [| by apply Hsin].
      apply Hs. by apply H1e. }
    split; [| set_solver].
    intros c' [-> | Hin]%elem_of_cons Hc'; [| by apply Hein].
    apply He. by apply H1f.
Qed.

Lemma elem_of_cover (p : Z) (s : list interval) (i : interval) :
  i ∈ cover p s <-> i ∈ s /\ covers i p.
Proof. unfold cover, covers. rewrite list_elem_of_filter. tauto. Qed.

Lemma elem_of_add_range (u u' : MWUpdate) (l : list MWUpdate) :
  u' ∈ add_range u l -> u' = u \/ u' ∈ l.
Proof.
  unfold add_range. destruct (existsb (MWUpdate_eqb u) l); [by right |].
  intros [H | H%list_elem_of_singleton]%elem_of_app; [by right | by left].
Qed.

(** ** The loop over the endpoints *)

Lemma ranges_add_inv (Q : MWUpdate -> Prop) (b : bool) (u : MWUpdate)
    (l : list MWUpdate) :
  (forall x, x ∈ l -> Q x) -> (b = true -> Q u) ->
  forall x, x ∈ (if b then add_range u l else l) -> Q x.
Proof.
  intros Hl Hu x. destruct b; [| by apply Hl].
  intros [-> | Hx]%elem_of_add_range; [by apply Hu | by apply Hl].
Qed.

Lemma endpoint_step_inv (s : list interval) (first lo m e : Z) (w w' : sweep) :
  sweep_inv WL_LEVEL s lo m w -> lo <= e -> m <= e ->
  (forall i, i ∈ s -> lo <= iv_end i -> m <= iv_end i -> iv_end i < e -> False) ->
  endpoint_step WL_LEVEL s first w e = Ok w' ->
  sweep_inv WL_LEVEL s lo (e + 1) w'.
Proof.
  intros (Ha & Hb & Hc) Hlo Hm Hgap Hstep.
  unfold endpoint_step in Hstep.
  apply bind_Ok in Hstep as (a & Hcov & Hstep).
  apply cover_loop_spec in Hcov as (_ & Hlev & _ & _ & _ & Hends & _).
  assert (F1 : forall i, i ∈ s -> covers i e -> iv_level i <= eplevel a).
  { intros i Hi Hcv. apply Hlev. by apply elem_of_cover. }
  assert (F2 : forall i, i ∈ s -> covers i e -> iv_end i = e ->
               end_ids a <> ∅).
  { intros i Hi Hcv He Hemp.
    assert (Hin : iv_id i ∈ end_ids a)
      by (apply Hends; [by apply elem_of_cover | done]).
    rewrite Hemp in Hin. set_solver. }
  assert (G : eplevel a < WL_LEVEL -> forall o p i,
              oep w = Some o -> o <= p <= e -> i ∈ s ->
              WL_LEVEL <= iv_level i -> ~ covers i p).
  { intros Hwl o p i Ho Hp Hi Hl Hcv. unfold covers in Hcv.
    destruct (Z.le_gt_cases e (iv_end i)) as [Hge | Hlt].
    - assert (iv_level i <= eplevel a) by (apply F1; [done |]; unfold covers; lia).
      lia.
    - destruct (Ha o Ho) as [Hlo' _].
      destruct (Z.le_gt_cases m (iv_end i)) as [Hmi | Hmi].
      + apply (Hgap i); [done | lia | done | done].
      + destruct (Hb i Hi) as (o' & Ho' & Hlt'); [lia | lia | done |].
        rewrite Ho in Ho'. injection Ho' as <-. lia. }
  assert (G0 : eplevel a < WL_LEVEL -> forall i, i ∈ s ->
               WL_LEVEL <= iv_level i -> ~ covers i e).
  { intros Hwl i Hi Hl Hcv. specialize (F1 i Hi Hcv). lia. }
  destruct (decide (start_ids a = ∅ /\ end_ids a = ∅)) as [| Hne]; [done |].
  injection Hstep as <-.
  (* the state after the [start_ids] block *)
  set (w1 := if decide (start_ids a = ∅) then _ else _).
  assert (H1 : (forall o, oep w1 = Some o ->
                  lo <= o <= e /\ (o = e \/ oep w = Some o)) /\
               (start_ids a = ∅ -> oep w1 = oep w) /\
               (start_ids a <> ∅ -> oep w1 = Some e) /\
               (forall u, u ∈ ranges w1 ->
                  range_ok WL_LEVEL s u /\ lo <= start u /\ end_ u < e + 1)).
  { subst w1. destruct (decide (start_ids a = ∅)) as [Hs | Hs]; simpl.
    - split; [| split; [done | split; [done |]]].
      + intros o Ho. destruct (Ha o Ho). split; [lia | by right].
      + intros u Hu. destruct (Hc u Hu) as (? & ? & ?). split; [done | split; [done | lia]].
    - split; [| split; [done | split; [done |]]].
      + intros o [= <-]. split; [lia | by left].
      + destruct (oep w) as [o |] eqn:Ho.
        * apply ranges_add_inv.
          -- intros u Hu. destruct (Hc u Hu) as (? & ? & ?).
             split; [done | split; [done | lia]].
          -- intros Hcond.
             apply andb_true_iff in Hcond as [Hcond Hwl].
             apply andb_true_iff in Hcond as [Hoe Hlive].
             apply negb_true_iff, Z.eqb_neq in Hoe.
             apply bool_decide_eq_true in Hlive. apply Z.ltb_lt in Hwl.
             destruct (Ha o eq_refl) as [Hlo' Hom].
             split; [| simpl; lia]. split; [done |]. split; [simpl; lia |].
             simpl. intros p i Hp Hi Hl. apply (G Hwl o p i); [done | lia | done | done].
        * intros u Hu. destruct (Hc u Hu) as (? & ? & ?).
          split; [done | split; [done | lia]]. }
  clearbody w1. destruct H1 as (H1a & H1b & H1c & H1d).
  destruct (decide (end_ids a = ∅)) as [He | He].
  - (* no interval ends here: some interval starts here *)
    assert (Hs : start_ids a <> ∅) by tauto.
    split; [| split].
    + intros o Ho. destruct (H1a o Ho). lia.
    + intros i Hi Hse Hloi Hlt. exists e. split; [by apply H1c |].
      destruct (Z.eq_dec (iv_end i) e) as [Heq | Hneq]; [| lia].
      exfalso. apply (F2 i Hi); [unfold covers; lia | done | done].
    + done.
  - split; [| split]; simpl.
    + intros o [= <-]. lia.
    + intros i Hi Hse Hloi Hlt. exists (e + 1). split; [done | lia].
    + destruct (oep w1) as [o1 |] eqn:Ho1; [| done].
      apply ranges_add_inv; [done |].
      intros Hcond. apply andb_true_iff in Hcond as [Hlive Hwl].
      apply bool_decide_eq_true in Hlive. apply Z.ltb_lt in Hwl.
      destruct (H1a o1 eq_refl) as [Hbounds Horigin].
      split; [| simpl; lia]. split; [done |]. split; [simpl; lia |].
      simpl. intros p i Hp Hi Hl.
      destruct Horigin as [-> | Ho].
      * assert (p = e) as -> by lia. by apply G0.
      * apply (G Hwl o1 p i); done.
Qed.

Lemma sweep_loop_inv (s : list interval) (first lo hi : Z) (l : list Z) :
  StronglySorted Z.le l -> NoDup l ->
  forall (m : Z) (w w' : sweep),
    m <= hi + 1 ->
    (forall x, x ∈ l -> lo <= x <= hi /\ m <= x) ->
    (forall i, i ∈ s -> lo <= iv_end i <= hi -> m <= iv_end i -> iv_end i ∈ l) ->
    sweep_inv WL_LEVEL s lo m w ->
    for_each (endpoint_step WL_LEVEL s first) l w = Ok w' ->
    exists m', m' <= hi + 1 /\ sweep_inv WL_LEVEL s lo m' w'.
Proof.
  induction l as [| e l IH]; intros Hsorted Hnd m w w' Hm Hl Hall Hinv; simpl.
  - intros [= <-]. by exists m.
  - intros (w1 & Hstep & Hrest)%bind_Ok.
    apply StronglySorted_inv in Hsorted as [Hsorted Hmin].
    apply NoDup_cons in Hnd as [Hnotin Hnd].
    destruct (Hl e) as [Hbe Hme]; [apply elem_of_cons; by left |].
    assert (Hgt : forall x, x ∈ l -> e < x).
    { intros x Hx. rewrite Forall_forall in Hmin. specialize (Hmin x Hx).
      assert (x <> e) by (intros ->; done). lia. }
    eapply (IH Hsorted Hnd (e + 1) w1 w'); [lia | | | | exact Hrest].
    + intros x Hx. specialize (Hgt x Hx).
      destruct (Hl x) as [Hbx _]; [apply elem_of_cons; by right |]. lia.
    + intros i Hi Hw Hge.
      assert (Hin : iv_end i ∈ e :: l) by (apply (Hall i Hi Hw); lia).
      apply elem_of_cons in Hin as [Heq | Hin]; [lia | done].
    + eapply endpoint_step_inv; [exact Hinv | lia | lia | | exact Hstep].
      intros i Hi Hloi Hmi Hlt.
      assert (Hin : iv_end i ∈ e :: l) by (apply (Hall i Hi); lia).
      apply elem_of_cons in Hin as [Heq | Hin]; [lia |].
      specialize (Hgt _ Hin). lia.
Qed.

(** Every range returned by [_calc_ipranges] has a non-empty identifier
    set and ordered bounds, lies inside the window, and contains no point
    covered by a stored interval of level [WL_LEVEL] or above; in
    particular neither of its two bounds is touched by a whitelist
    interval. *)
Theorem calc_ipranges_excludes_whitelist (s : list interval)
    (lo hi : option Z) (rs : list MWUpdate) :
  _calc_ipranges WL_LEVEL s lo hi = Ok rs ->
  forall u, u ∈ rs ->
    uuids u <> ∅ /\
    window_lo lo <= start u /\ start u <= end_ u /\ end_ u <= window_hi hi /\
    (forall (p : Z) (i : interval),
       start u <= p <= end_ u -> i ∈ s -> WL_LEVEL <= iv_level i ->
       ~ covers i p) /\
    (forall i : interval, i ∈ s -> iv_level i = WL_LEVEL ->
       ~ covers i (start u) /\ ~ covers i (end_ u)).
Proof.
  unfold _calc_ipranges. intros Hcalc u Hu.
  destruct (window_endpoints s lo hi) as [| first l] eqn:Heps.
  { injection Hcalc as <-. by apply elem_of_nil in Hu. }
  apply bind_Ok in Hcalc as (w & Hloop & [= <-]).
  assert (Hmem : forall x, x ∈ first :: l ->
            x ∈ endpoints s /\ window_lo lo <= x <= window_hi hi).
  { intros x Hx. apply elem_of_window_endpoints. by rewrite Heps. }
  destruct (Hmem first) as [_ Hfirst]; [apply elem_of_cons; by left |].
  destruct (sweep_loop_inv s first (window_lo lo) (window_hi hi) (first :: l))
    with (m := window_lo lo) (w := {| oep := None; live_ids := ∅; ranges := [] |})
         (w' := w) as (m' & Hm' & _ & _ & Hranges).
  - rewrite <- Heps. apply window_endpoints_sorted.
  - rewrite <- Heps. apply window_endpoints_NoDup.
  - lia.
  - intros x Hx. destruct (Hmem x Hx). lia.
  - intros i Hi Hw _. rewrite <- Heps. apply elem_of_window_endpoints.
    split; [| done]. apply elem_of_endpoints. exists i. split; [done | by right].
  - split; [done |]. split; [intros; lia |]. by intros ? ?%elem_of_nil.
  - exact Hloop.
  - destruct (Hranges u Hu) as ((Hids & Hord & Hfree) & Hlo & Hhi).
    split; [done |]. split; [done |]. split; [done |]. split; [lia |].
    split; [done |]. intros i Hi Hlev.
    split; apply Hfree; (done || lia).
Qed.

(** ** The ranges do not overlap *)

Lemma StronglySorted_snoc {A : Type} (R : A -> A -> Prop) (l : list A) (x : A) :
  StronglySorted R l -> (forall y, y ∈ l -> R y x) ->
  StronglySorted R (l ++ [x]).
Proof.
  induction 1 as [| y l Hl IH Hy]; intros Hx; simpl.
  - repeat constructor.
  - constructor.
    + apply IH. intros z Hz. apply Hx. apply elem_of_cons. by right.
    + apply Forall_app. split; [done |]. constructor; [| constructor].
      apply Hx. apply elem_of_cons. by left.
Qed.

Lemma ordered_add (b : bool) (u : MWUpdate) (l : list MWUpdate) (o o' : Z) :
  StronglySorted before l -> (forall v, v ∈ l -> end_ v < o) ->
  start u = o -> end_ u < o' -> o <= o' ->
  StronglySorted before (if b then add_range u l else l) /\
  forall v, v ∈ (if b then add_range u l else l) -> end_ v < o'.
Proof.
  intros Hs Hl Hu He Ho.
  assert (Hl' : forall v, v ∈ l -> end_ v < o') by (intros v Hv; specialize (Hl v Hv); lia).
  destruct b; [| done]. unfold add_range.
  destruct (existsb (MWUpdate_eqb u) l); [done |]. split.
  - apply StronglySorted_snoc; [done |]. intros v Hv. unfold before.
    specialize (Hl v Hv). lia.
  - intros v [Hv | ->%list_elem_of_singleton]%elem_of_app; [by apply Hl' | done].
Qed.

Lemma endpoint_step_ordered (s : list interval) (first lo m e : Z)
    (w w' : sweep) :
  sweep_inv WL_LEVEL s lo m w -> m <= e -> ordered_sweep w ->
  endpoint_step WL_LEVEL s first w e = Ok w' ->
  ordered_sweep w'.
Proof.
  intros (Ha & _ & _) Hm [Hs Ho] Hstep.
  unfold endpoint_step in Hstep.
  apply bind_Ok in Hstep as (a & _ & Hstep).
  destruct (decide (start_ids a = ∅ /\ end_ids a = ∅)) as [| Hne]; [done |].
  injection Hstep as <-.
  set (w1 := if decide (start_ids a = ∅) then _ else _).
  assert (H1 : ordered_sweep w1 /\ forall o, oep w1 = Some o -> o <= e).
  { subst w1. destruct (decide (start_ids a = ∅)) as [Hsa | Hsa].
    - split; [by split |]. simpl. intros o Hoep. specialize (Ha o Hoep). lia.
    - split; [| simpl; intros o [= <-]; lia].
      unfold ordered_sweep. simpl. destruct (oep w) as [o |] eqn:Hoep.
      + apply (ordered_add _ _ _ o e); try done; simpl; try lia.
        specialize (Ha o eq_refl). lia.
      + rewrite Ho. split; [constructor | by intros v ?%elem_of_nil]. }
  clearbody w1. destruct H1 as [[Hs1 Ho1] Hle1].
  destruct (decide (end_ids a = ∅)) as [Hea | Hea]; [by split |].
  unfold ordered_sweep. simpl. destruct (oep w1) as [o1 |] eqn:Hoep1.
  - apply (ordered_add _ _ _ o1 (e + 1)); try done; simpl; try lia.
    specialize (Hle1 o1 eq_refl). lia.
  - rewrite Ho1. split; [constructor | by intros v ?%elem_of_nil].
Qed.

Lemma sweep_loop_ordered (s : list interval) (first lo hi : Z) (l : list Z) :
  StronglySorted Z.le l -> NoDup l ->
  forall (m : Z) (w w' : sweep),
    m <= hi + 1 ->
    (forall x, x ∈ l -> lo <= x <= hi /\ m <= x) ->
    (forall i, i ∈ s -> lo <= iv_end i <= hi -> m <= iv_end i -> iv_end i ∈ l) ->
    sweep_inv WL_LEVEL s lo m w -> ordered_sweep w ->
    for_each (endpoint_step WL_LEVEL s first) l w = Ok w' ->
    ordered_sweep w'.
Proof.
  induction l as [| e l IH]; intros Hsorted Hnd m w w' Hm Hl Hall Hinv Hord;
    simpl.
  - by intros [= <-].
  - intros (w1 & Hstep & Hrest)%bind_Ok.
    apply StronglySorted_inv in Hsorted as [Hsorted Hmin].
    apply NoDup_cons in Hnd as [Hnotin Hnd].
    destruct (Hl e) as [Hbe Hme]; [apply elem_of_cons; by left |].
    assert (Hgt : forall x, x ∈ l -> e < x).
    { intros x Hx. rewrite Forall_forall in Hmin. specialize (Hmin x Hx).
      assert (x <> e) by (intros ->; done). lia. }
    eapply (IH Hsorted Hnd (e + 1) w1 w'); [lia | | | | | exact Hrest].
    + intros x Hx. specialize (Hgt x Hx).
      destruct (Hl x) as [Hbx _]; [apply elem_of_cons; by right |]. lia.
    + intros i Hi Hw Hge.
      assert (Hin : iv_end i ∈ e :: l) by (apply (Hall i Hi Hw); lia).
      apply elem_of_cons in Hin as [Heq | Hin]; [lia | done].
    + eapply endpoint_step_inv; [exact Hinv | lia | lia | | exact Hstep].
      intros i Hi Hloi Hmi Hlt.
      assert (Hin : iv_end i ∈ e :: l) by (apply (Hall i Hi); lia).
      apply elem_of_cons in Hin as [Heq | Hin]; [lia |].
      specialize (Hgt _ Hin). lia.
    + exact (endpoint_step_ordered s first lo m e w w1 Hinv Hme Hord Hstep).
Qed.

Lemma StronglySorted_before_apart (l : list MWUpdate) :
  StronglySorted before l ->
  forall u v, u ∈ l -> v ∈ l ->
    u = v \/ end_ u < start v \/ end_ v < start u.
Proof.
  induction 1 as [| x l Hl IH Hx]; intros u v Hu Hv.
  - by apply elem_of_nil in Hu.
  - rewrite Forall_forall in Hx.
    apply elem_of_cons in Hu as [-> | Hu]; apply elem_of_cons in Hv as [-> | Hv].
    + by left.
    + right. left. by apply Hx.
    + right. right. by apply Hx.
    + by apply IH.
Qed.

(** The ranges returned by [_calc_ipranges] do not overlap: any two of
    them are the same range or one ends below the start of the other, so
    no address is reported in two ranges and no two ranges have the same
    bounds. *)
Theorem calc_ipranges_disjoint (s : list interval) (lo hi : option Z)
    (rs : list MWUpdate) :
  _calc_ipranges WL_LEVEL s lo hi = Ok rs ->
  forall u v, u ∈ rs -> v ∈ rs ->
    u = v \/ end_ u < start v \/ end_ v < start u.
Proof.
  unfold _calc_ipranges. intros Hcalc.
  destruct (window_endpoints s lo hi) as [| first l] eqn:Heps.
  { injection Hcalc as <-. by intros u v ?%elem_of_nil. }
  apply bind_Ok in Hcalc as (w & Hloop & [= <-]).
  apply StronglySorted_before_apart.
  assert (Hmem : forall x, x ∈ first :: l ->
            x ∈ endpoints s /\ window_lo lo <= x <= window_hi hi).
  { intros x Hx. apply elem_of_window_endpoints. by rewrite Heps. }
  destruct (Hmem first) as [_ Hfirst]; [apply elem_of_cons; by left |].
  apply (sweep_loop_ordered s first (window_lo lo) (window_hi hi) (first :: l))
    with (m := window_lo lo) (w := {| oep := None; live_ids := ∅; ranges := [] |}).
  - rewrite <- Heps. apply window_endpoints_sorted.
  - rewrite <- Heps. apply window_endpoints_NoDup.
  - lia.
  - intros x Hx. destruct (Hmem x Hx). lia.
  - intros i Hi Hw _. rewrite <- Heps. apply elem_of_window_endpoints.
    split; [| done]. apply elem_of_endpoints. exists i. split; [done | by right].
  - split; [done |]. split; [intros; lia |]. by intros ? ?%elem_of_nil.
  - split; [constructor | done].
  - exact Hloop.
Qed.

End RangeFacts.

Lemma calc_ipranges_excludes_whitelist_witness :
  exists rs : list Ipop.MWUpdate,
    Ipop._calc_ipranges 254 Ipop.whitelist_store None None = Ok rs /\
    rs <> [] /\
    forall u, u ∈ rs ->
      3232301055 < Ipop.start u \/ Ipop.end_ u < 3232235520.
Proof.
  assert (H : Ipop._calc_ipranges 254 Ipop.whitelist_store None None
              = Ok [ {| Ipop.start := 3232301056; Ipop.end_ := 4294967295;
                        Ipop.uuids := {[ "u1" ]} |} ])
    by (vm_compute; reflexivity).
  eexists. split; [exact H |]. split; [discriminate |].
  intros u Hu.
  destruct (calc_ipranges_excludes_whitelist 254 Ipop.whitelist_store None None
              _ H u Hu) as (_ & _ & Hord & _ & Hfree & _).
  destruct (Z.le_gt_cases (Ipop.start u) 3232301055) as [Hs | Hs]; [| by left].
  destruct (Z.le_gt_cases 3232235520 (Ipop.end_ u)) as [He | He]; [| by right].
  exfalso.
  assert (Hwl : {| Ipop.iv_id := "wl"; Ipop.iv_start := 3232235520;
                   Ipop.iv_end := 3232301055; Ipop.iv_level := 254 |}
                ∈ Ipop.whitelist_store).
  { apply elem_of_cons. right. apply elem_of_cons. by left. }
  destruct (Z.le_gt_cases 3232235520 (Ipop.start u)) as [Hs' | Hs'].
  - apply (Hfree (Ipop.start u) _ ltac:(lia) Hwl); [simpl; lia |].
    unfold Ipop.covers; simpl; lia.
  - apply (Hfree 3232235520 _ ltac:(lia) Hwl); [simpl; lia |].
    unfold Ipop.covers; simpl; lia.
Defined.

Lemma calc_ipranges_disjoint_witness :
  exists rs : list Ipop.MWUpdate,
    Ipop._calc_ipranges 254 Ipop.scenario_store None None = Ok rs /\
    length rs = 3%nat /\
    forall u v, u ∈ rs -> v ∈ rs ->
      u = v \/ Ipop.end_ u < Ipop.start v \/ Ipop.end_ v < Ipop.start u.
Proof.
  assert (H : Ipop._calc_ipranges 254 Ipop.scenario_store None None
              = Ok [ {| Ipop.start := 167772160; Ipop.end_ := 167772287;
                        Ipop.uuids := {[ "u1" ]} |};
                     {| Ipop.start := 167772288; Ipop.end_ := 167772351;
                        Ipop.uuids := {[ "u1"; "u2" ]} |};
                     {| Ipop.start := 167772352; Ipop.end_ := 167772415;
                        Ipop.uuids := {[ "u1" ]} |} ])
    by (vm_compute; reflexivity).
  eexists. split; [exact H |]. split; [reflexivity |].
  exact (calc_ipranges_disjoint 254 Ipop.scenario_store None None _ H).
Defined.

Section WithdrawFacts.
Import Ipop.

Variable WL_LEVEL : Z.
Variable uuid_bytes : string -> option string.
Variable uuid_str : string -> string.
Variable RESERVED_ATTRIBUTES : string -> option (value -> value -> result value).

(** A withdrawal for a pair [(indicator, source)] that has no record
    returns without touching the table or the interval store and without
    emitting; only the call counter moves. *)
Theorem filtered_withdraw_unknown_is_noop (whitelists : list string)
    (source indicator_ : string) (n : node) :
  table n !! (indicator_ +:+ source) = None ->
  exists n' : node,
    filtered_withdraw WL_LEVEL uuid_bytes uuid_str RESERVED_ATTRIBUTES
      whitelists source indicator_ n = Ok n' /\
    table n' = table n /\ st n' = st n /\ emitted n' = emitted n.
Proof.
  intros Hnone. unfold filtered_withdraw.
  change (table (count "withdraw.processed" n)) with (table n).
  rewrite Hnone. by eexists.
Qed.

End WithdrawFacts.

Lemma filtered_withdraw_unknown_is_noop_witness :
  exists n' : Ipop.node,
    Ipop.filtered_withdraw 254 (fun s => Some s) (fun s => s) (fun _ => None)
      [] "S2" "10.0.0.128-10.0.0.191" Ipop.empty_node = Ok n' /\
    Ipop.table n' = ∅ /\ Ipop.st n' = [] /\ Ipop.emitted n' = [].
Proof.
  apply (filtered_withdraw_unknown_is_noop 254 (fun s => Some s) (fun s => s)
           (fun _ => None) [] "S2" "10.0.0.128-10.0.0.191" Ipop.empty_node).
  reflexivity.
Defined.

(** * Further properties of the polling miner *)

Section PollerMore.
Import Poller.

(** ** Classification *)

(** The classification of an indicator is [NX] exactly when the table has
    no record for it; otherwise it is the D bit plus the A, F and W bits of
    the record; and it is always one of the nine states that
    [_polling_loop] handles, so the branch that logs an unhandled state is
    never taken. *)
Theorem classification_is_handled (indicator : string)
    (t : gmap string record) (now thr : Z) (st : IndicatorStatus) :
  IndicatorStatus_init indicator t now thr = Ok st ->
  handled (state st) = true /\
  ((t !! indicator = None /\ cv st = None /\ state st = NX) \/
   (exists r a l,
      t !! indicator = Some r /\ cv st = Some r /\
      r !! "_age_out" = Some a /\ r !! "_last_run" = Some l /\
      state st = state_of r a l now thr)).
Proof.
  unfold IndicatorStatus_init. destruct (t !! indicator) as [r |] eqn:Ht.
  - destruct (r !! "_age_out") as [a |] eqn:Ha; [| done].
    destruct (r !! "_last_run") as [l |] eqn:Hl; [| done].
    cbn [of_option mbind result_bind]. intros [= <-]. cbn [state cv]. split.
    + destruct (py_lt a now), (py_ge l thr),
        (decide (py_get r "_withdrawn" = VNone)); reflexivity.
    + right. exists r, a, l. repeat split; try done. unfold state_of.
      destruct (py_lt a now), (py_ge l thr),
        (decide (py_get r "_withdrawn" = VNone)); reflexivity.
  - intros [= <-]. split; [reflexivity |]. by left.
Qed.

Lemma classification_is_handled_witness :
  handled (state {| cv := Some seen_record; state := XFNANW |}) = true /\
  ((table seen_node !! "1.2.3.4" = None /\
    cv {| cv := Some seen_record; state := XFNANW |} = None /\
    state {| cv := Some seen_record; state := XFNANW |} = NX) \/
   (exists r a l,
      table seen_node !! "1.2.3.4" = Some r /\
      cv {| cv := Some seen_record; state := XFNANW |} = Some r /\
      r !! "_age_out" = Some a /\ r !! "_last_run" = Some l /\
      state {| cv := Some seen_record; state := XFNANW |}
      = state_of r a l 2000 1000)).
Proof.
  apply (classification_is_handled "1.2.3.4" (table seen_node) 2000 1000).
  reflexivity.
Defined.

(** ** In-feed indicators that are aged out or withdrawn *)

(** An indicator that is in the feed but aged out and not withdrawn (state
    DFA) is only marked as seen: [_last_run] becomes [now], every other
    attribute of the stored record is kept, the observed attributes are not
    merged, [_age_out] is not recomputed and nothing is emitted. *)
Theorem aged_out_in_feed_only_refreshed (cfg : config) (now : Z) (n : node)
    (indicator : string) (attrs : record) (st : IndicatorStatus) (v : record) :
  table n !! indicator = Some v ->
  IndicatorStatus_init indicator (table n) now (in_feed_threshold cfg now n)
    = Ok st ->
  state st = XFXANW ->
  exists n' : node,
    process_pair cfg now n (Some indicator, attrs) = Ok n' /\
    table n' = <[indicator := <["_last_run" := VInt now]> v]> (table n) /\
    (forall k, k <> "_last_run" ->
       (table n' !! indicator) ≫= (fun v' => v' !! k) = v !! k) /\
    emitted n' = emitted n.
Proof.
  intros Ht Hst Hs. unfold process_pair.
  fold (in_feed_threshold cfg now n). rewrite Hst, bind_Ok_l.
  rewrite (IndicatorStatus_init_cv _ _ _ _ _ Hst), Ht, Hs.
  change (in_states XFXANW [NX; NFNANW; NFXANW; NFXAXW; NFNAXW]) with false.
  change (XFXANW =? XFNANW) with false. change (XFXANW =? XFXANW) with true.
  cbv beta iota. change (of_option (Some v)) with (Ok v). rewrite bind_Ok_l.
  eexists. split; [reflexivity |]. split; [reflexivity |]. split; [| done].
  intros k Hk. simpl. rewrite lookup_insert_eq. simpl.
  by rewrite lookup_insert_ne.
Qed.

(** An indicator that is in the feed and already withdrawn (states DFW and
    DFAW) gets [_last_run = _withdrawn = now] and nothing is emitted; as a
    consequence the garbage collection of any run that started at or
    before [now] keeps the record. *)
Theorem withdrawn_in_feed_is_kept (cfg : config) (now : Z) (n : node)
    (indicator : string) (attrs : record) (st : IndicatorStatus) (v : record) :
  table n !! indicator = Some v ->
  IndicatorStatus_init indicator (table n) now (in_feed_threshold cfg now n)
    = Ok st ->
  in_states (state st) [XFXAXW; XFNAXW] = true ->
  exists n' : node,
    process_pair cfg now n (Some indicator, attrs) = Ok n' /\
    table n' = <[indicator :=
                   <["_withdrawn" := VInt now]> (<["_last_run" := VInt now]> v)]>
                 (table n) /\
    emitted n' = emitted n /\
    forall t0, t0 <= now ->
      table (_collect_garbage t0 n') !! indicator = table n' !! indicator.
Proof.
  intros Ht Hst Hs. unfold process_pair.
  fold (in_feed_threshold cfg now n). rewrite Hst, bind_Ok_l.
  rewrite (IndicatorStatus_init_cv _ _ _ _ _ Hst), Ht.
  assert (Hcase : state st = XFXAXW \/ state st = XFNAXW).
  { unfold in_states in Hs. simpl in Hs.
    destruct (Z.eqb_spec (state st) XFXAXW); [by left |].
    destruct (Z.eqb_spec (state st) XFNAXW); [by right | done]. }
  assert (Hbr : in_states (state st) [NX; NFNANW; NFXANW; NFXAXW; NFNAXW] = false
                /\ (state st =? XFNANW) = false /\ (state st =? XFXANW) = false).
  { destruct Hcase as [-> | ->]; by vm_compute. }
  destruct Hbr as (-> & -> & ->). rewrite Hs.
  change (of_option (Some v)) with (Ok v). rewrite bind_Ok_l.
  eexists. split; [reflexivity |]. split; [reflexivity |]. split; [done |].
  intros t0 Ht0. rewrite collect_garbage_lookup. simpl.
  rewrite lookup_insert_eq. rewrite decide_False; [done |].
  intros (w & Hw & Hle). rewrite lookup_insert_eq in Hw.
  injection Hw as <-. lia.
Qed.

Lemma aged_out_in_feed_only_refreshed_witness :
  exists n' : node,
    process_pair scenario_config 2000 aged_node
      (Some "1.2.3.4", {[ "confidence" := VInt 70 ]}) = Ok n' /\
    (table n' !! "1.2.3.4") ≫= (fun v' => v' !! "confidence")
    = Some (VInt 50) /\
    emitted n' = [].
Proof.
  destruct (aged_out_in_feed_only_refreshed scenario_config 2000 aged_node
              "1.2.3.4" {[ "confidence" := VInt 70 ]}
              {| cv := Some (<["_age_out" := VInt 1500]> seen_record);
                 state := XFXANW |}
              (<["_age_out" := VInt 1500]> seen_record))
    as (n' & Hp & _ & Hkeep & Hem);
    [reflexivity | reflexivity | reflexivity |].
  exists n'. split; [exact Hp |]. split; [| exact Hem].
  rewrite Hkeep by discriminate. reflexivity.
Defined.

Lemma withdrawn_in_feed_is_kept_witness :
  exists n' : node,
    process_pair scenario_config 2000 withdrawn_feed_node
      (Some "1.2.3.4", scenario_attrs) = Ok n' /\
    emitted n' = [] /\
    table (_collect_garbage 2000 n') !! "1.2.3.4" = table n' !! "1.2.3.4".
Proof.
  destruct (withdrawn_in_feed_is_kept scenario_config 2000 withdrawn_feed_node
              "1.2.3.4" scenario_attrs
              {| cv := Some (<["_withdrawn" := VInt 1600]> seen_record);
                 state := XFNAXW |}
              (<["_withdrawn" := VInt 1600]> seen_record))
    as (n' & Hp & _ & Hem & Hgc);
    [reflexivity | reflexivity | reflexivity |].
  exists n'. split; [exact Hp |]. split; [exact Hem |]. apply Hgc. lia.
Defined.

(** ** What the polling loop never does *)

Ltac process_pair_cases :=
  repeat (first [ progress simpl
                | discriminate
                | match goal with
                  | |- (match ?m with _ => _ end ≫= _) = Ok _ -> _ =>
                      destruct m
                  | |- (?m ≫= _) = Ok _ -> _ => destruct m
                  | |- (if ?b then _ else _) = Ok _ -> _ => destruct b
                  | |- Ok (if ?b then _ else _) = Ok _ -> _ => destruct b
                  end ]).

Lemma grows_refl n : grows n n.
Proof. split; [done |]. exists []. by rewrite app_nil_r. Qed.

Lemma grows_trans n1 n2 n3 : grows n1 n2 -> grows n2 n3 -> grows n1 n3.
Proof.
  intros [Hd1 (es1 & He1 & Hf1)] [Hd2 (es2 & He2 & Hf2)].
  split; [set_solver |]. exists (es1 ++ es2).
  split; [by rewrite He2, He1, app_assoc | by apply Forall_app].
Qed.

Lemma grows_put_update i v n (b : bool) :
  grows n (if b then table_put i v n else emit_update i v (table_put i v n)).
Proof.
  destruct b; (split; [simpl; rewrite dom_insert; set_solver |]).
  - exists []. by rewrite app_nil_r.
  - exists [Update i v]. split; [done |]. by repeat constructor.
Qed.

Lemma process_pair_grows cfg now n ia n' :
  process_pair cfg now n ia = Ok n' -> grows n n'.
Proof.
  destruct ia as [[indicator |] attrs]; simpl;
    [| intros [= <-]; apply grows_refl].
  process_pair_cases; intros [= <-];
    try apply grows_refl;
    try (apply (grows_put_update _ _ _ true));
    try (apply (grows_put_update _ _ _ false)).
  all: try (split; [simpl; rewrite dom_insert; set_solver |];
            first [ exists []; split; [by rewrite app_nil_r | constructor]
                  | eexists [Update _ _]; split; [reflexivity |];
                    by repeat constructor ]).
Qed.

(** A polling pass never removes a record from the table and never emits a
    withdraw: whatever the feed yields, every indicator of the table is
    still in it afterwards, and the messages emitted by the pass are
    updates. *)
Theorem polling_loop_only_adds (cfg : config) (now : Z)
    (items : list (result (list (option string * record)))) (n n' : node) :
  _polling_loop cfg now items n = Ok n' ->
  (forall i, is_Some (table n !! i) -> is_Some (table n' !! i)) /\
  exists es, emitted n' = emitted n ++ es /\
             forall e, e ∈ es -> exists i v, e = Update i v.
Proof.
  intros Hloop.
  assert (Hg : grows n n').
  { revert Hloop. unfold _polling_loop.
    apply (for_each_inv _ (grows n)); [| apply grows_refl].
    intros s [ipairs |] s' Hs; simpl; [| by intros [= <-]].
    apply (for_each_inv _ (grows n)); [| done].
    intros s1 ia s2 Hs1 H%process_pair_grows. by eapply grows_trans. }
  destruct Hg as [Hd (es & He & Hf)]. split.
  - intros i Hi. apply elem_of_dom. apply Hd. by apply elem_of_dom.
  - exists es. split; [done |]. intros e Hin.
    rewrite Forall_forall in Hf. specialize (Hf e Hin).
    destruct e as [i v | i]; [eauto | done].
Qed.

Lemma polling_loop_only_adds_witness :
  exists n', _polling_loop scenario_config 2000
               [Ok [(Some "5.6.7.8", scenario_attrs)]; Raise] seen_node = Ok n' /\
             is_Some (table n' !! "1.2.3.4").
Proof.
  assert (H : exists n', _polling_loop scenario_config 2000
                [Ok [(Some "5.6.7.8", scenario_attrs)]; Raise] seen_node = Ok n')
    by (eexists; reflexivity).
  destruct H as (n' & Hn'). exists n'. split; [exact Hn' |].
  apply (polling_loop_only_adds _ _ _ _ _ Hn'). by eexists.
Defined.

(** ** Age-out deadlines *)

Lemma calc_age_out_insert_age_out ao (r : record) x :
  _calc_age_out ao (<["_age_out" := x]> r) = _calc_age_out ao r.
Proof.
  unfold _calc_age_out. rewrite lookup_insert_ne by done.
  destruct (match r !! "type" with
            | Some (VInt _) => _ | Some (VStr t) => _ | Some (VList _) => _
            | _ => _ end) as [[sel |] |]; try done.
  cbn [mbind result_bind]. destruct (base sel); simpl;
    by rewrite lookup_insert_ne.
Qed.

(** The keys [interval] and [sudden_death] of the age-out policy are not
    selectors: for an indicator whose [type] attribute is one of these two
    words [_calc_age_out] raises, so a fresh observation of such an
    indicator raises out of the polling loop, before anything is stored or
    emitted for it. *)
Theorem reserved_type_raises (cfg : config) (now : Z) (n : node)
    (indicator t : string) (attrs : record)
    (items : list (result (list (option string * record)))) :
  t = "interval" \/ t = "sudden_death" ->
  attrs !! "type" = Some (VStr t) ->
  table n !! indicator = None ->
  _calc_age_out (age_out cfg) attrs = Raise /\
  process_pair cfg now n (Some indicator, attrs) = Raise /\
  _polling_loop cfg now (Ok [(Some indicator, attrs)] :: items) n = Raise.
Proof.
  intros Ht Htype Hnone.
  assert (Hentry : age_out_entry (age_out cfg) t = Some Raise).
  { unfold age_out_entry. destruct Ht as [-> | ->]; reflexivity. }
  assert (Hcalc : forall r : record, r !! "type" = Some (VStr t) ->
                    _calc_age_out (age_out cfg) r = Raise).
  { intros r Hr. unfold _calc_age_out. by rewrite Hr, Hentry. }
  assert (Hpair : process_pair cfg now n (Some indicator, attrs) = Raise).
  { unfold process_pair, IndicatorStatus_init. rewrite Hnone, bind_Ok_l.
    cbn [state].
    change (in_states 0 [NX; NFNANW; NFXANW; NFXAXW; NFNAXW]) with true.
    cbv iota. rewrite Hcalc; [done |]. by apply lookup_union_Some_l. }
  split; [by apply Hcalc |]. split; [done |].
  unfold _polling_loop. cbn [for_each process_item]. by rewrite Hpair.
Qed.

Lemma reserved_type_raises_witness :
  _calc_age_out (age_out scenario_config) {[ "type" := VStr "interval" ]}
    = Raise /\
  process_pair scenario_config 1000 empty_node
    (Some "1.2.3.4", {[ "type" := VStr "interval" ]}) = Raise /\
  _polling_loop scenario_config 1000
    (Ok [(Some "1.2.3.4", {[ "type" := VStr "interval" ]})] :: []) empty_node
    = Raise.
Proof.
  apply (reserved_type_raises scenario_config 1000 empty_node "1.2.3.4"
           "interval" {[ "type" := VStr "interval" ]} []);
    [by left | reflexivity | reflexivity].
Defined.

(** ** Observing the same indicator again *)

Lemma merged_value_fresh cfg now attrs a :
  attrs !! "_age_out" = None -> attrs !! "_last_run" = None ->
  merged_value now (<["_age_out" := VInt a]> (fresh_value cfg now attrs)) attrs
  = <["_age_out" := VInt a]> (fresh_value cfg now attrs).
Proof.
  intros Hao Hlr. apply map_eq. intros k. unfold merged_value.
  destruct (attrs !! k) as [x |] eqn:Hk.
  - rewrite (lookup_union_Some_l _ _ _ _ Hk).
    rewrite lookup_insert_ne by (intros <-; congruence).
    unfold fresh_value. by rewrite (lookup_union_Some_l _ _ _ _ Hk).
  - rewrite lookup_union_r by done.
    destruct (decide (k = "_last_run")) as [-> | Hne].
    + rewrite lookup_insert_eq, lookup_insert_ne by done.
      unfold fresh_value. rewrite lookup_union_r by done.
      by rewrite lookup_insert_eq.
    + by rewrite lookup_insert_ne.
Qed.

Lemma table_put_same i v n : table n !! i = Some v -> table_put i v n = n.
Proof.
  intros Ht. destruct n as [t e s lr la]. unfold table_put, set_table. simpl in *.
  f_equal. by apply insert_id.
Qed.

Lemma process_pair_repeat (cfg : config) (now : Z) (n : node)
    (indicator : string) (attrs : record) (a : Z) :
  table n !! indicator
    = Some (<["_age_out" := VInt a]> (fresh_value cfg now attrs)) ->
  _calc_age_out (age_out cfg) (fresh_value cfg now attrs) = Ok a ->
  attrs !! "_age_out" = None ->
  attrs !! "_last_run" = None ->
  py_get (fresh_value cfg now attrs) "_withdrawn" = VNone ->
  now <= a ->
  in_feed_threshold cfg now n <= now ->
  process_pair cfg now n (Some indicator, attrs) = Ok n.
Proof.
  intros Ht Hcalc Hao Hlr Hw Hnow Hthr.
  set (v := <["_age_out" := VInt a]> (fresh_value cfg now attrs)) in *.
  assert (Hva : v !! "_age_out" = Some (VInt a)) by apply lookup_insert_eq.
  assert (Hvl : v !! "_last_run" = Some (VInt now)).
  { subst v. rewrite lookup_insert_ne by done. unfold fresh_value.
    rewrite lookup_union_r by done. by rewrite lookup_insert_eq. }
  assert (Hvw : py_get v "_withdrawn" = VNone).
  { subst v. unfold py_get in *. by rewrite lookup_insert_ne. }
  assert (Hst : IndicatorStatus_init indicator (table n) now
                  (in_feed_threshold cfg now n)
                = Ok {| cv := Some v; state := XFNANW |}).
  { unfold IndicatorStatus_init. rewrite Ht, Hva, Hvl.
    cbn [of_option mbind result_bind]. unfold py_ge, py_lt.
    destruct (Z.ltb_spec a now); [lia |].
    destruct (Z.ltb_spec now (in_feed_threshold cfg now n)); [lia |].
    cbn [negb]. rewrite decide_True by done. reflexivity. }
  assert (Hm : merged_value now v attrs = v) by (by apply merged_value_fresh).
  rewrite (process_pair_in_feed cfg now n indicator attrs _ v a Ht Hst eq_refl).
  - rewrite Hm. assert (Hv' : <["_age_out" := VInt a]> v = v).
    { subst v. apply insert_insert_eq. }
    rewrite Hv'.
    assert (Hcmp : _compare_attributes v attrs = true).
    { apply compare_attributes_true. intros k x Hk. unfold py_get. subst v.
      rewrite lookup_insert_ne by (intros <-; congruence).
      unfold fresh_value. by rewrite (lookup_union_Some_l _ _ _ _ Hk). }
    rewrite Hcmp. f_equal. by apply table_put_same.
  - rewrite Hm. subst v. by rewrite calc_age_out_insert_age_out.
Qed.

Lemma process_pair_fresh cfg now n indicator attrs a :
  table n !! indicator = None ->
  _calc_age_out (age_out cfg) (fresh_value cfg now attrs) = Ok a ->
  let v := <["_age_out" := VInt a]> (fresh_value cfg now attrs) in
  process_pair cfg now n (Some indicator, attrs)
  = Ok (emit_update indicator v (table_put indicator v (count "added" n))).
Proof.
  intros Hnone Hcalc. unfold process_pair, IndicatorStatus_init.
  rewrite Hnone, bind_Ok_l. cbn [state].
  change (in_states 0 [NX; NFNANW; NFXANW; NFXAXW; NFNAXW]) with true.
  cbv iota. fold (fresh_value cfg now attrs). by rewrite Hcalc, bind_Ok_l.
Qed.

(** A feed that lists a new indicator twice in one poll, with the same
    attributes, stores and emits it once: the second occurrence finds the
    record just written, equal on every observed attribute, and changes
    nothing.  This holds when the observation carries no [_age_out] or
    [_last_run] key, the new record is not withdrawn, its deadline is not
    before [now] and the in-feed threshold is not after [now]. *)
Theorem duplicate_observation_emits_once (cfg : config) (now : Z) (n : node)
    (indicator : string) (attrs : record) (a : Z) :
  table n !! indicator = None ->
  _calc_age_out (age_out cfg) (fresh_value cfg now attrs) = Ok a ->
  attrs !! "_age_out" = None ->
  attrs !! "_last_run" = None ->
  py_get (fresh_value cfg now attrs) "_withdrawn" = VNone ->
  now <= a ->
  in_feed_threshold cfg now n <= now ->
  exists n1 : node,
    process_pair cfg now n (Some indicator, attrs) = Ok n1 /\
    for_each (process_pair cfg now)
      [(Some indicator, attrs); (Some indicator, attrs)] n = Ok n1 /\
    emitted n1
    = emitted n
      ++ [Update indicator
            (<["_age_out" := VInt a]> (fresh_value cfg now attrs))].
Proof.
  intros Hnone Hcalc Hao Hlr Hw Hnow Hthr.
  pose proof (process_pair_fresh cfg now n indicator attrs a Hnone Hcalc)
    as Hfirst. cbv zeta in Hfirst.
  eexists. split; [exact Hfirst |]. split; [| reflexivity].
  cbn [for_each]. rewrite Hfirst, bind_Ok_l.
  rewrite (process_pair_repeat cfg now _ indicator attrs a); try done.
  cbn [emit_update table_put count set_table table]. apply lookup_insert_eq.
Qed.

Lemma duplicate_observation_emits_once_witness :
  exists n1 : node,
    process_pair scenario_config 1000 empty_node
      (Some "1.2.3.4", scenario_attrs) = Ok n1 /\
    for_each (process_pair scenario_config 1000)
      [(Some "1.2.3.4", scenario_attrs); (Some "1.2.3.4", scenario_attrs)]
      empty_node = Ok n1 /\
    emitted n1
    = emitted empty_node
      ++ [Update "1.2.3.4"
            (<["_age_out" := VInt _MAX_AGE_OUT]>
               (fresh_value scenario_config 1000 scenario_attrs))].
Proof.
  apply (duplicate_observation_emits_once scenario_config 1000 empty_node
           "1.2.3.4" scenario_attrs _MAX_AGE_OUT);
    [reflexivity | reflexivity | reflexivity | reflexivity | reflexivity
    | by vm_compute | by vm_compute].
Defined.

(** ** From a missed poll to deletion *)

(** An indicator that the last poll did not see ([_last_run] at or below
    the node's [last_run]) and that is not withdrawn is withdrawn by the
    next age-out pass when sudden death is enabled: the scan sets its
    [_age_out] to [last_run - 1], and a pass at a time [now >= last_run]
    sets [_withdrawn = now] on that record and emits a withdraw for it. *)
Theorem missed_indicator_is_withdrawn (cfg : config) (lr now : Z) (n : node)
    (i : string) (v : record) :
  sudden_death (age_out cfg) = true ->
  last_run n = Some lr ->
  table n !! i = Some v ->
  missed lr v ->
  not_withdrawn v ->
  lr <= now ->
  let n1 := sudden_death_scan cfg n in
  let n2 := _age_out_run now n1 in
  table n2 !! i
  = Some (<["_withdrawn" := VInt now]> (<["_age_out" := VInt (lr - 1)]> v)) /\
  Withdraw i ∈ emitted n2 /\
  forall j w, Update j w ∈ emitted n2 -> Update j w ∈ emitted n.
Proof.
  intros Hsd Hlr Ht Hm Hnw Hle n1 n2.
  assert (Ht1 : table n1 !! i = Some (<["_age_out" := VInt (lr - 1)]> v)).
  { subst n1. unfold sudden_death_scan, _sudden_death. rewrite Hsd, Hlr.
    apply sudden_death_fold_in; [apply NoDup_fst_query |].
    by apply elem_of_query. }
  assert (He1 : emitted n1 = emitted n).
  { subst n1. unfold sudden_death_scan, _sudden_death. rewrite Hsd, Hlr.
    apply sudden_death_fold_emitted. }
  assert (Hin : i ∈ withdrawn_by now n1).
  { apply elem_of_withdrawn_by. eexists. split; [exact Ht1 |]. split.
    - exists (lr - 1). split; [apply lookup_insert_eq | lia].
    - unfold not_withdrawn, py_get in *. by rewrite lookup_insert_ne. }
  subst n2. split; [| split].
  - rewrite age_out_run_withdrawn by done. by rewrite Ht1.
  - rewrite age_out_run_emitted. apply elem_of_app. right.
    by apply list_elem_of_fmap_2.
  - intros j w. rewrite age_out_run_emitted, He1.
    intros [? | (? & [=] & _)%list_elem_of_fmap]%elem_of_app. done.
Qed.

Lemma missed_indicator_is_withdrawn_witness :
  table (_age_out_run 2000 (sudden_death_scan scenario_config seen_node))
    !! "1.2.3.4"
  = Some (<["_withdrawn" := VInt 2000]>
            (<["_age_out" := VInt 999]> seen_record)) /\
  Withdraw "1.2.3.4"
    ∈ emitted (_age_out_run 2000 (sudden_death_scan scenario_config seen_node)).
Proof.
  destruct (missed_indicator_is_withdrawn scenario_config 1000 2000 seen_node
              "1.2.3.4" seen_record) as (Ht & He & _);
    [reflexivity | reflexivity | reflexivity
    | exists 1000; split; [reflexivity | lia] | reflexivity | lia |].
  split; [exact Ht | exact He].
Defined.

(** A record withdrawn by the age-out pass at [now] is deleted by the
    garbage collection of a run that started at [t0] exactly when
    [now < t0]; otherwise it stays in the table, withdrawn. *)
Theorem withdrawn_then_collected (now t0 : Z) (n : node) (i : string)
    (v : record) :
  table n !! i = Some v ->
  aged_out now v ->
  not_withdrawn v ->
  table (_collect_garbage t0 (_age_out_run now n)) !! i
  = if decide (now < t0) then None
    else Some (<["_withdrawn" := VInt now]> v).
Proof.
  intros Ht Ha Hnw. rewrite collect_garbage_lookup.
  assert (Hin : i ∈ withdrawn_by now n).
  { apply elem_of_withdrawn_by. eauto. }
  rewrite age_out_run_withdrawn, Ht by done. cbn [fmap option_fmap option_map].
  destruct (decide (now < t0)) as [Hlt | Hge].
  - rewrite decide_True; [done |]. exists now.
    split; [apply lookup_insert_eq | lia].
  - rewrite decide_False; [done |]. intros (w & Hw & Hle).
    rewrite lookup_insert_eq in Hw. injection Hw as <-. lia.
Qed.

Lemma withdrawn_then_collected_witness :
  table (_collect_garbage 2000 (_age_out_run 1600 aged_node)) !! "1.2.3.4"
  = None.
Proof.
  apply (withdrawn_then_collected 1600 2000 aged_node "1.2.3.4"
           (<["_age_out" := VInt 1500]> seen_record));
    [reflexivity | exists 1500; split; [reflexivity | lia] | reflexivity].
Defined.

(** ** The wait between two polls *)

Lemma deltat_loop_done fuel step d :
  0 <= d -> deltat_loop fuel step d = Some d.
Proof.
  intros Hd. destruct fuel; simpl; by destruct (Z.ltb_spec d 0); [lia |].
Qed.

Lemma deltat_loop_mod fuel step d :
  0 < step -> d < 0 -> (Z.to_nat (- d) <= fuel)%nat ->
  deltat_loop fuel step d = Some (d mod step).
Proof.
  intros Hstep. revert d. induction fuel as [| fuel IH]; intros d Hd Hfuel.
  - lia.
  - simpl. destruct (Z.ltb_spec d 0); [| lia].
    destruct (Z.lt_ge_cases (d + step) 0) as [Hneg | Hpos].
    + rewrite IH by lia.
      f_equal. replace (d + step) with (d + 1 * step) by lia.
      by rewrite Z_mod_plus_full.
    + rewrite deltat_loop_done by done. f_equal.
      apply (Z.mod_unique d step (-1)); lia.
Qed.

Lemma deltat_loop_diverges fuel step d :
  step <= 0 -> d < 0 -> deltat_loop fuel step d = None.
Proof.
  intros Hstep. revert d. induction fuel as [| fuel IH]; intros d Hd; simpl;
    destruct (Z.ltb_spec d 0); try lia; [done |]. apply IH. lia.
Qed.

(** With a positive polling interval the loop that computes the wait
    before the next poll ends.  The wait is the time left until
    [lastrun + interval] when the poll ended before that instant;
    otherwise it is that (negative) time brought back into
    [0, interval) by whole intervals, so the polls stay on the grid
    [lastrun + k * interval]. *)
Theorem deltat_on_time (cfg : config) (lastrun now : Z) :
  0 < interval cfg ->
  exists fuel0 : nat, forall fuel : nat, (fuel0 <= fuel)%nat ->
    exists d : Z,
      deltat fuel cfg lastrun now = Some d /\
      0 <= d /\
      (now <= lastrun + interval cfg * 1000 ->
         d = lastrun + interval cfg * 1000 - now) /\
      (lastrun + interval cfg * 1000 < now ->
         d < interval cfg * 1000 /\
         exists k : Z, 0 < k /\ now + d = lastrun + interval cfg * 1000 * (k + 1)).
Proof.
  intros Hi. set (step := interval cfg * 1000).
  set (d0 := lastrun + step - now).
  exists (Z.to_nat (- d0)). intros fuel Hfuel. unfold deltat.
  fold step. fold d0.
  destruct (Z.lt_ge_cases d0 0) as [Hneg | Hpos].
  - exists (d0 mod step). rewrite deltat_loop_mod by (done || lia).
    pose proof (Z.mod_pos_bound d0 step ltac:(lia)) as Hb.
    split; [done |]. split; [lia |]. split; [lia |]. intros _.
    split; [lia |]. exists (- (d0 / step)).
    pose proof (Z.div_mod d0 step ltac:(lia)) as Hdm.
    assert (d0 / step < 0) by (apply Z.div_lt_upper_bound; lia).
    split; [lia |]. subst d0. nia.
  - exists d0. rewrite deltat_loop_done by done.
    split; [done |]. split; [done |]. split; [subst d0; lia | lia].
Qed.

Lemma deltat_on_time_witness :
  exists fuel0 : nat, forall fuel : nat, (fuel0 <= fuel)%nat ->
    exists d : Z,
      deltat fuel scenario_config 1000 8000000 = Some d /\
      0 <= d /\
      (8000000 <= 1000 + interval scenario_config * 1000 ->
         d = 1000 + interval scenario_config * 1000 - 8000000) /\
      (1000 + interval scenario_config * 1000 < 8000000 ->
         d < interval scenario_config * 1000 /\
         exists k : Z,
           0 < k /\
           8000000 + d = 1000 + interval scenario_config * 1000 * (k + 1)).
Proof.
  apply (deltat_on_time scenario_config 1000 8000000). reflexivity.
Defined.

(** With a polling interval of zero or less, a poll that ends after
    [lastrun + interval] never leaves the loop that computes the wait:
    adding the interval does not bring [deltat] back to zero, whatever the
    number of turns. *)
Theorem deltat_never_ends (cfg : config) (lastrun now : Z) (fuel : nat) :
  interval cfg <= 0 ->
  lastrun + interval cfg * 1000 < now ->
  deltat fuel cfg lastrun now = None.
Proof.
  intros Hi Hlate. unfold deltat. apply deltat_loop_diverges; lia.
Qed.

Lemma deltat_never_ends_witness :
  deltat 1000
    {| source_name := "src"; attributes := ∅; interval := 0;
       num_retries := 2; age_out := age_out scenario_config |} 1000 1001
  = None.
Proof.
  apply (deltat_never_ends
           {| source_name := "src"; attributes := ∅; interval := 0;
              num_retries := 2; age_out := age_out scenario_config |}
           1000 1001 1000); simpl; lia.
Defined.

End PollerMore.
